(** * github-lang-rank: ranking, bucketing, exclusion and chart layout

    A shallow embedding of [main.go] (package [main]) and the properties of
    its aggregation and rendering pipeline.

    Conventions of the embedding
    - Go's [int64] and [int] are [Z]; the additions that the program performs
      on byte counts are written with their two's complement wrap-around
      ([add64]).  The layout arithmetic of [writeSVG] is on small numbers and
      is written on [Z] directly, with Go's truncating [/] and [%]
      ([Z.quot], [Z.rem]).
    - Go's [string] is a sequence of bytes: Rocq's [string], one [ascii] per
      byte.  [<] on Go strings is the byte-wise lexicographic order,
      [String.ltb].
    - [map[string]int64] is [gmap string Z].  A [range] over a map visits the
      entries in an unspecified order: a loop over a map is written as a
      function of the list of entries in the order of the visit, the map
      version runs it on [map_to_list], and the theorems show that the order
      of the visit does not matter.
    - [float64] is IEEE 754 binary64, computed with [SpecFloat] (precision 53,
      maximal exponent 1024, round to nearest even).
    - What the program obtains from its environment (the file system, the
      HTTP responses, Unicode case mapping) is a parameter: class [Env]. *)

From Stdlib Require Import ZArith String Ascii List Lia SpecFloat.
From stdpp Require Import base tactics option list sorting gmap strings pretty.

Local Open Scope Z_scope.

(** * Part I: the program *)

(** ** Machine integers *)

(** The value an [int64] holds after an operation whose mathematical result
    is [z]. *)
Definition wrap64 (z : Z) : Z := (z + 2 ^ 63) mod 2 ^ 64 - 2 ^ 63.

Definition in_int64 (z : Z) : Prop := - 2 ^ 63 <= z <= 2 ^ 63 - 1.

(** [a + b] on [int64]. *)
Definition add64 (a b : Z) : Z := wrap64 (a + b).

(** ** Floating point *)

Definition float64 : Type := spec_float.

(** [float64(z)] for an integer [z]. *)
Definition f64_of_int (z : Z) : float64 := binary_normalize 53 1024 z 0 false.

Definition f64_mul : float64 → float64 → float64 := SFmul 53 1024.
Definition f64_div : float64 → float64 → float64 := SFdiv 53 1024.

(** [int(x)]: the fraction is discarded (truncation towards zero).  The Go
    specification leaves the result open when the value does not fit the
    integer type, is infinite or is not a number; the program only converts
    quotients scaled by the bar width, and the embedding gives the truncated
    mathematical value, and 0 for infinities and NaN. *)
Definition f64_to_int (x : float64) : Z :=
  match x with
  | S754_finite s m e =>
      let v := if 0 <=? e then Z.pos m * 2 ^ e else Z.pos m / 2 ^ (- e) in
      if s then - v else v
  | _ => 0
  end.

(** ** Strings and formatting *)

Definition dquote : ascii := "034"%char.
Definition newline : string := String "010"%char "".

(** The format strings of the program are raw string literals that contain
    double quotes; they are written here with a backquote in place of every
    double quote (a raw string literal of Go cannot contain a backquote). *)
Fixpoint lit (s : string) : string :=
  match s with
  | EmptyString => EmptyString
  | String c rest =>
      String (if Ascii.eqb c "`"%char then dquote else c) (lit rest)
  end.

Definition round_half_even (num den : Z) : Z :=
  let q := num / den in
  let r := num mod den in
  if 2 * r <? den then q
  else if den <? 2 * r then q + 1
  else if Z.even q then q else q + 1.

(** The verb [%.2f]: the exact value of the float, rounded to two decimals,
    to even on a tie. *)
Definition format_f2 (x : float64) : string :=
  match x with
  | S754_zero s => (if s then "-" else "") +:+ "0.00"
  | S754_infinity s => if s then "-Inf" else "+Inf"
  | S754_nan => "NaN"
  | S754_finite s m e =>
      let n := if 0 <=? e then Z.pos m * 2 ^ e * 100
               else round_half_even (Z.pos m * 100) (2 ^ (- e)) in
      (if s then "-" else "") +:+ pretty (n / 100) +:+ "." +:+
      pretty (n mod 100 / 10) +:+ pretty (n mod 10)
  end.

Inductive arg : Type :=
  | ArgInt (z : Z)
  | ArgStr (s : string)
  | ArgFloat (x : float64).

(** [%-8s]: the string, padded with spaces on the right to eight
    characters (counted here in bytes). *)
Definition pad_right (width : nat) (s : string) : string :=
  s +:+ String.concat "" (replicate (width - String.length s) " ").

Definition format_arg (verb : string) (a : option arg) : string :=
  match a with
  | None => "%!" +:+ verb +:+ "(MISSING)"
  | Some (ArgInt z) =>
      if String.eqb verb "d" then pretty z else "%!" +:+ verb +:+ "(int)"
  | Some (ArgStr s) =>
      if String.eqb verb "s" then s
      else if String.eqb verb "w" then s
      else if String.eqb verb "-8s" then pad_right 8 s
      else "%!" +:+ verb +:+ "(string)"
  | Some (ArgFloat x) =>
      if String.eqb verb ".2f" then format_f2 x
      else "%!" +:+ verb +:+ "(float64)"
  end.

(** [fmt.Sprintf], for the verbs that the program uses: [%d], [%s], [%w]
    (an error, given by its message), [%-8s], [%.2f] and [%%]. *)
Fixpoint Sprintf (format : string) (args : list arg) : string :=
  match format with
  | EmptyString => EmptyString
  | String "%"%char (String "%"%char rest) => String "%"%char (Sprintf rest args)
  | String "%"%char (String "d"%char rest) =>
      format_arg "d" (head args) +:+ Sprintf rest (tail args)
  | String "%"%char (String "s"%char rest) =>
      format_arg "s" (head args) +:+ Sprintf rest (tail args)
  | String "%"%char (String "w"%char rest) =>
      format_arg "w" (head args) +:+ Sprintf rest (tail args)
  | String "%"%char (String "-"%char (String "8"%char (String "s"%char rest))) =>
      format_arg "-8s" (head args) +:+ Sprintf rest (tail args)
  | String "%"%char (String "."%char (String "2"%char (String "f"%char rest))) =>
      format_arg ".2f" (head args) +:+ Sprintf rest (tail args)
  | String c rest => String c (Sprintf rest args)
  end.

(** [strings.NewReplacer(old1, new1, ...).Replace(input)] when every [old]
    is a single byte: each byte of the input that is an [old] is replaced by
    the [new] of its first pair, the other bytes are copied. *)
Fixpoint replaceByte (pairs : list (ascii * string)) (c : ascii) : string :=
  match pairs with
  | [] => String c EmptyString
  | (old, new) :: pairs' => if Ascii.eqb c old then new else replaceByte pairs' c
  end.

Fixpoint Replace (pairs : list (ascii * string)) (input : string) : string :=
  match input with
  | EmptyString => EmptyString
  | String c rest => replaceByte pairs c +:+ Replace pairs rest
  end.

(** ** Package [sort] *)

Fixpoint sort_insert {A : Type} (less : A → A → bool) (x : A) (l : list A) : list A :=
  match l with
  | [] => [x]
  | y :: l' => if less x y then x :: l else y :: sort_insert less x l'
  end.

(** [sort.Slice(x, less)]: the slice ordered by [less].  The library makes
    no promise on the relative order of elements that [less] does not
    separate; [sort_Slice_unique] shows that no such choice arises when
    [less] separates every two elements of the slice. *)
Definition sort_Slice {A : Type} (less : A → A → bool) (l : list A) : list A :=
  foldr (sort_insert less) [] l.

(** [sort.Strings(x)]: increasing byte-wise order. *)
Definition sort_Strings (l : list string) : list string :=
  sort_Slice String.ltb l.

(** ** The environment *)

Definition error : Type := string.

Class Env : Type := {
  (** [strings.ToLower] *)
  ToLower : string → string;
  (** [filepath.Dir] *)
  filepath_Dir : string → string;
  (** the files on disk *)
  FileSystem : Type;
  (** [os.MkdirAll(dir, 0o755)] *)
  os_MkdirAll : string → FileSystem → option error * FileSystem;
  (** [os.WriteFile(path, data, 0o644)] *)
  os_WriteFile : string → string → FileSystem → option error * FileSystem;
  (** [getJSON(client, url, token, &langs)] for a [map[string]int64]:
      what the Language Source answers at [url] *)
  getJSON_languages : string → string → error + gmap string Z;
}.

(** ** The data model *)

(** [type repo struct] *)
Record repo : Type := mkRepo {
  Name : string;
  FullName : string;
  Fork : bool;
  Archived : bool;
}.

(** [type langStat struct] *)
Record langStat : Type := mkLangStat { Lang : string; Bytes : Z }.

Global Instance langStat_eq_dec : EqDecision langStat.
Proof. solve_decision. Defined.

(** [type config struct], as [mergeConfig] returns it: [ShowOther] is the
    value behind the pointer, which [mergeConfig] never leaves nil. *)
Record config : Type := mkConfig {
  Username : string;
  Token : string;
  Output : string;
  IncludeForks : bool;
  IncludeArchived : bool;
  Org : bool;
  ShowOther : bool;
  Exclude : list string;
  Top : Z;
}.

(** The loop [totalBytes += item.Bytes] over a slice, from 0. *)
Definition sumBytes (l : list langStat) : Z :=
  foldl (λ acc item, add64 acc (Bytes item)) 0 l.

(** ** The Ranker *)

(** The comparison function handed to [sort.Slice] in [rankLanguages]. *)
Definition less (a b : langStat) : bool :=
  if Bytes a =? Bytes b then String.ltb (Lang a) (Lang b)
  else Bytes a >? Bytes b.

(** The loop [for lang, bytes := range total] visiting the entries in the
    order [iter], followed by the sort. *)
Definition rankLanguagesFrom (iter : list (string * Z)) : list langStat :=
  let stats := foldl (λ stats e, stats ++ [mkLangStat e.1 e.2]) [] iter in
  sort_Slice less stats.

Definition rankLanguages (total : gmap string Z) : list langStat :=
  rankLanguagesFrom (map_to_list total).

(** ** The Bucketizer *)

Definition collapseOthers (ranked : list langStat) (top : Z) (showOther : bool)
    : list langStat :=
  if (top <=? 0) || (Z.of_nat (length ranked) <=? top) then ranked
  else
    let keep := take (Z.to_nat top) ranked in
    if negb showOther then keep
    else
      let otherBytes := sumBytes (drop (Z.to_nat top) ranked) in
      if 0 <? otherBytes then keep ++ [mkLangStat "Other" otherBytes]
      else keep.

Section program.
Context `{Env}.

(** ** The Excluder *)

(** The map [normalized] of [applyExcludes]: from the lower-cased term to
    the term as given; a later term overwrites an earlier one. *)
Definition normalizeExcludes (excludes : list string) : gmap string string :=
  foldl (λ normalized item, <[ToLower item := item]> normalized) ∅ excludes.

(** [applyExcludes], with the languages of [total] visited in the order
    [iter].  The map is updated in place: the first component is the map
    after the call, the second the slice returned (nil is the empty list). *)
Definition applyExcludesFrom (iter : list string) (total : gmap string Z)
    (excludes : list string) : gmap string Z * list string :=
  if (length excludes =? 0)%nat then (total, [])
  else
    let normalized := normalizeExcludes excludes in
    let st :=
      foldl (λ (st : gmap string Z * list string) lang,
               match normalized !! ToLower lang with
               | Some original => (delete lang st.1, st.2 ++ [original])
               | None => st
               end) (total, []) iter in
    (st.1, sort_Strings st.2).

Definition applyExcludes (total : gmap string Z) (excludes : list string)
    : gmap string Z * list string :=
  applyExcludesFrom (map_to_list total).*1 total excludes.

(** ** Escaping and colors *)

Definition escapeText (input : string) : string :=
  Replace [("&"%char, "&amp;"); ("<"%char, "&lt;"); (">"%char, "&gt;");
           (dquote, "&quot;"); ("'"%char, "&apos;")] input.

Definition languageColors : gmap string string :=
  list_to_map [
    ("go", "#00ADD8"); ("python", "#3572A5"); ("javascript", "#f1e05a");
    ("typescript", "#3178c6"); ("java", "#b07219"); ("php", "#4F5D95");
    ("ruby", "#701516"); ("c", "#555555"); ("c++", "#f34b7d");
    ("c#", "#178600"); ("swift", "#F05138"); ("kotlin", "#A97BFF");
    ("rust", "#dea584"); ("scala", "#c22d40"); ("shell", "#89e051");
    ("html", "#e34c26"); ("css", "#563d7c"); ("vue", "#41b883");
    ("dart", "#00B4AB"); ("lua", "#000080"); ("r", "#198CE7");
    ("matlab", "#e16737"); ("makefile", "#427819"); ("hcl", "#844FBA");
    ("dockerfile", "#384d54") ].

Definition colorForLanguage (lang : string) (fallback : string) : string :=
  match languageColors !! ToLower lang with
  | Some color => color
  | None => fallback
  end.

(** The slice [colors] of [writeSVG]. *)
Definition colors : list string :=
  ["#f2c94c"; "#2d9cdb"; "#27ae60"; "#bb6bd9"; "#56ccf2"; "#eb5757"].

(** [colors[i%len(colors)]] *)
Definition fallbackColor (i : nat) : string :=
  nth (i mod length colors) colors "".

(** ** The Chart Renderer *)

(** One [<rect>] of the bar: the values that the first loop of [writeSVG]
    prints for a segment. *)
Record barSegment : Type := mkBarSegment {
  seg_x : Z;
  seg_width : Z;
  seg_color : string;
}.

(** [int(float64(barWidth) * (float64(item.Bytes) / float64(totalBytes)))] *)
Definition rawSegmentWidth (barWidth bytes totalBytes : Z) : Z :=
  f64_to_int (f64_mul (f64_of_int barWidth)
                      (f64_div (f64_of_int bytes) (f64_of_int totalBytes))).

(** The first loop of [writeSVG], from index [i] on, where [items] is
    [ranked[i:]], [len] is [len(ranked)] and [accumX] the position reached. *)
Fixpoint barLoop (len : nat) (totalBytes barX barWidth : Z)
    (i : nat) (items : list langStat) (accumX : Z) : list barSegment :=
  match items with
  | [] => []
  | item :: rest =>
      let segmentWidth := rawSegmentWidth barWidth (Bytes item) totalBytes in
      if segmentWidth =? 0 then
        barLoop len totalBytes barX barWidth (S i) rest accumX
      else
        let segmentWidth :=
          if Z.of_nat i =? Z.of_nat len - 1 then barX + barWidth - accumX
          else segmentWidth in
        let color := colorForLanguage (Lang item) (fallbackColor i) in
        mkBarSegment accumX segmentWidth color ::
        barLoop len totalBytes barX barWidth (S i) rest (accumX + segmentWidth)
  end.

(** One tile of the grid: the values that the second loop prints. *)
Record tile : Type := mkTile {
  tile_x : Z;
  tile_y : Z;
  tile_color : string;
  tile_label : string;
  tile_percent : float64;
  tile_bytes : Z;
}.

(** The body of the second loop of [writeSVG] at index [i]. *)
Definition tileAt (totalBytes cols tileWidth tileHeight tileGap gridTop cardPadding : Z)
    (i : nat) (item : langStat) : tile :=
  let row := Z.quot (Z.of_nat i) cols in
  let col := Z.rem (Z.of_nat i) cols in
  let x := cardPadding + col * (tileWidth + tileGap) in
  let y := gridTop + row * (tileHeight + tileGap) in
  let color := colorForLanguage (Lang item) (fallbackColor i) in
  let percent :=
    f64_mul (f64_div (f64_of_int (Bytes item)) (f64_of_int totalBytes))
            (f64_of_int 100) in
  mkTile x y color (escapeText (Lang item)) percent (Bytes item).

Definition fontFamily : string := "Poppins, 'Segoe UI', Arial, sans-serif".

Definition renderSegment (barY barHeight : Z) (s : barSegment) : string :=
  Sprintf (lit "<rect x=`%d` y=`%d` width=`%d` height=`%d` fill=`%s` clip-path=`url(#barClip)`/>" +:+ newline)
    [ArgInt (seg_x s); ArgInt barY; ArgInt (seg_width s); ArgInt barHeight;
     ArgStr (seg_color s)].

Definition renderTile (tileWidth tileHeight : Z) (t : tile) : string :=
  let x := tile_x t in
  let y := tile_y t in
  Sprintf (lit "<rect x=`%d` y=`%d` width=`%d` height=`%d` rx=`12` fill=`#1b2328` stroke=`#2c3a42` stroke-width=`1`/>" +:+ newline)
    [ArgInt x; ArgInt y; ArgInt tileWidth; ArgInt tileHeight] +:+
  Sprintf (lit "<rect x=`%d` y=`%d` width=`6` height=`%d` rx=`3` fill=`%s`/>" +:+ newline)
    [ArgInt (x + 12); ArgInt (y + 10); ArgInt (tileHeight - 20); ArgStr (tile_color t)] +:+
  Sprintf (lit "<text x=`%d` y=`%d` font-family=`Poppins, 'Segoe UI', Arial, sans-serif` font-size=`16` fill=`#d3dde3`>%s</text>" +:+ newline)
    [ArgInt (x + 28); ArgInt (y + 28); ArgStr (tile_label t)] +:+
  Sprintf (lit "<text x=`%d` y=`%d` font-family=`Poppins, 'Segoe UI', Arial, sans-serif` font-size=`13` fill=`#93a4ac`>%.2f%%</text>" +:+ newline)
    [ArgInt (x + 28); ArgInt (y + 48); ArgFloat (tile_percent t)] +:+
  Sprintf (lit "<text x=`%d` y=`%d` font-family=`Poppins, 'Segoe UI', Arial, sans-serif` font-size=`12` fill=`#6f848e`>%d bytes</text>" +:+ newline)
    [ArgInt (x + 28); ArgInt (y + 64); ArgInt (tile_bytes t)].

(** The geometry that [writeSVG] derives from the number of entries and
    from the presence of a footnote. *)
Record layout : Type := mkLayout {
  cols : Z;
  rows : Z;
  gridHeight : Z;
  topOffset : Z;
  barX : Z;
  barY : Z;
  barWidth : Z;
  gridTop : Z;
  tileWidth : Z;
}.

Definition width : Z := 640.
Definition height : Z := 320.
Definition cardPadding : Z := 28.
Definition headerHeight : Z := 24.
Definition headerGap : Z := 18.
Definition barHeight : Z := 14.
Definition barGap : Z := 22.
Definition tileHeight : Z := 72.
Definition tileGap : Z := 16.

Definition computeLayout (len : nat) (nexcluded : nat) : layout :=
  let cols := if Z.of_nat len <? 3 then Z.of_nat len else 3 in
  let rows := Z.quot (Z.of_nat len + cols - 1) cols in
  let footerHeight := if (0 <? nexcluded)%nat then 28 else 0 in
  let gridHeight := rows * tileHeight + (rows - 1) * tileGap in
  let contentHeight :=
    headerHeight + headerGap + barHeight + barGap + gridHeight + footerHeight in
  let topOffset := Z.quot (height - contentHeight) 2 in
  let topOffset := if topOffset <? cardPadding then cardPadding else topOffset in
  let barX := cardPadding in
  let barY := topOffset + headerHeight + headerGap in
  let barWidth := width - cardPadding * 2 in
  let gridTop := barY + barHeight + barGap in
  let gridWidth := width - cardPadding * 2 in
  let tileWidth := Z.quot (gridWidth - (cols - 1) * tileGap) cols in
  mkLayout cols rows gridHeight topOffset barX barY barWidth gridTop tileWidth.

(** The rectangles of the bar for a ranked sequence. *)
Definition barSegments (ranked : list langStat) (nexcluded : nat) : list barSegment :=
  let ly := computeLayout (length ranked) nexcluded in
  barLoop (length ranked) (sumBytes ranked) (barX ly) (barWidth ly) 0 ranked (barX ly).

(** The tiles of the grid for a ranked sequence. *)
Definition tiles (ranked : list langStat) (nexcluded : nat) : list tile :=
  let ly := computeLayout (length ranked) nexcluded in
  imap (tileAt (sumBytes ranked) (cols ly) (tileWidth ly) tileHeight tileGap
               (gridTop ly) cardPadding) ranked.

(** The footnote, when [excluded] is not empty. *)
Definition renderNote (ly : layout) (excluded : list string) : string :=
  if (0 <? length excluded)%nat then
    let note := Sprintf "Excluded: %s" [ArgStr (String.concat ", " excluded)] in
    let noteY := gridTop ly + gridHeight ly + 20 in
    let noteY := if height - 18 <? noteY then height - 18 else noteY in
    Sprintf (lit "<text x=`%d` y=`%d` font-family=`Poppins, 'Segoe UI', Arial, sans-serif` font-size=`12` fill=`#93a4ac`>%s</text>" +:+ newline)
      [ArgInt cardPadding; ArgInt noteY; ArgStr (escapeText note)]
  else "".

(** The content of the buffer [buf] when [writeSVG] reaches [os.WriteFile]. *)
Definition svgDocument (ranked : list langStat) (excluded : list string) : string :=
  let ly := computeLayout (length ranked) (length excluded) in
  let headerTextY := topOffset ly + 18 in
  lit "<?xml version=`1.0` encoding=`UTF-8`?>" +:+ newline +:+
  Sprintf (lit "<svg xmlns=`http://www.w3.org/2000/svg` width=`%d` height=`%d`>" +:+ newline)
    [ArgInt width; ArgInt height] +:+
  lit "<rect width=`100%` height=`100%` rx=`14` fill=`#202a2f` stroke=`#324047` stroke-width=`2`/>" +:+ newline +:+
  Sprintf (lit "<text x=`%d` y=`%d` font-family=`Poppins, 'Segoe UI', Arial, sans-serif` font-size=`20` fill=`#9be36a`>Most Used Languages</text>" +:+ newline)
    [ArgInt cardPadding; ArgInt headerTextY] +:+
  Sprintf (lit "<rect x=`%d` y=`%d` width=`%d` height=`%d` rx=`7` fill=`#1b2328`/>" +:+ newline)
    [ArgInt (barX ly); ArgInt (barY ly); ArgInt (barWidth ly); ArgInt barHeight] +:+
  Sprintf (lit "<clipPath id=`barClip`><rect x=`%d` y=`%d` width=`%d` height=`%d` rx=`7`/></clipPath>" +:+ newline)
    [ArgInt (barX ly); ArgInt (barY ly); ArgInt (barWidth ly); ArgInt barHeight] +:+
  String.concat "" (renderSegment (barY ly) barHeight <$> barSegments ranked (length excluded)) +:+
  String.concat "" (renderTile (tileWidth ly) tileHeight <$> tiles ranked (length excluded)) +:+
  renderNote ly excluded +:+
  lit "</svg>" +:+ newline.

Definition no_data : error := "no language data to chart".

(** [writeSVG]: the error returned (if any) and the files after the call. *)
Definition writeSVG (path : string) (ranked : list langStat) (owner : string)
    (excluded : list string) (fs : FileSystem) : option error * FileSystem :=
  if (length ranked =? 0)%nat then (Some no_data, fs)
  else
    let totalBytes := sumBytes ranked in
    if totalBytes =? 0 then (Some no_data, fs)
    else if (length ranked =? 0)%nat then (Some no_data, fs)
    else
      let buf := svgDocument ranked excluded in
      match os_MkdirAll (filepath_Dir path) fs with
      | (Some err, fs') =>
          if negb (String.eqb (filepath_Dir path) ".") then (Some err, fs')
          else os_WriteFile path buf fs'
      | (None, fs') => os_WriteFile path buf fs'
      end.

(** ** The Aggregator *)

(** The loop [for lang, bytes := range langs { total[lang] += bytes }],
    visiting the entries of [langs] in the order [iter]; a language that is
    not yet in [total] reads as 0. *)
Definition addLangs (total : gmap string Z) (iter : list (string * Z)) : gmap string Z :=
  foldl (λ total e, <[e.1 := add64 (default 0 (total !! e.1)) e.2]> total) total iter.

Definition languagesURL (r : repo) : string :=
  Sprintf "%s/repos/%s/languages" [ArgStr "https://api.github.com"; ArgStr (FullName r)].

(** The loop over [repos] in [fetchLanguages], from the accumulator
    [total]. *)
Fixpoint fetchLanguagesLoop (repos : list repo) (token : string)
    (total : gmap string Z) : error + gmap string Z :=
  match repos with
  | [] => inr total
  | r :: rest =>
      match getJSON_languages (languagesURL r) token with
      | inl err =>
          inl (Sprintf "languages for %s: %w" [ArgStr (FullName r); ArgStr err])
      | inr langs => fetchLanguagesLoop rest token (addLangs total (map_to_list langs))
      end
  end.

Definition fetchLanguages (repos : list repo) (token : string) : error + gmap string Z :=
  fetchLanguagesLoop repos token ∅.

(** ** The pipeline of [main] *)

Definition printTable (ranked : list langStat) : string :=
  "Language Bytes" +:+ newline +:+
  "-------- -----" +:+ newline +:+
  String.concat ""
    ((λ item, Sprintf ("%-8s %d" +:+ newline) [ArgStr (Lang item); ArgInt (Bytes item)])
       <$> ranked).

(** How a run of [main] ends: the exit status, what was printed, and the
    files. *)
Record outcome : Type := mkOutcome {
  exit_status : Z;
  stderr : string;
  stdout : string;
  files : FileSystem;
}.

(** [exitWith(msg)] *)
Definition exitWith (msg : string) (fs : FileSystem) : outcome :=
  mkOutcome 1 ("error: " +:+ msg +:+ newline) "" fs.

(** The filter loop of [main]. *)
Fixpoint filterRepos (merged : config) (repos : list repo) : list repo :=
  match repos with
  | [] => []
  | r :: rest =>
      if negb (IncludeForks merged) && Fork r then filterRepos merged rest
      else if negb (IncludeArchived merged) && Archived r then filterRepos merged rest
      else r :: filterRepos merged rest
  end.

(** [main] from the merged configuration on, where [fetched] is what
    [fetchRepos] returns. *)
Definition run (merged : config) (fetched : error + list repo) (fs : FileSystem)
    : outcome :=
  if String.eqb (Username merged) "" then exitWith "missing -username" fs
  else
    match fetched with
    | inl err => exitWith err fs
    | inr repos =>
        let filtered := filterRepos merged repos in
        if (length filtered =? 0)%nat then
          exitWith "no repositories after filtering" fs
        else
          match fetchLanguages filtered (Token merged) with
          | inl err => exitWith err fs
          | inr total =>
              let '(total, excluded) := applyExcludes total (Exclude merged) in
              let ranked := rankLanguages total in
              let ranked :=
                if (0 <? Top merged) && (Top merged <? Z.of_nat (length ranked))
                then collapseOthers ranked (Top merged) (ShowOther merged)
                else ranked in
              let table := printTable ranked in
              match writeSVG (Output merged) ranked (Username merged) excluded fs with
              | (Some err, fs') =>
                  mkOutcome 1 ("error: " +:+ err +:+ newline) table fs'
              | (None, fs') => mkOutcome 0 "" table fs'
              end
          end
    end.

End program.

(** ** An environment to run the program in *)

(** The case mapping of [strings.ToLower] on ASCII text. *)
Definition ascii_lower (c : ascii) : ascii :=
  let n := nat_of_ascii c in
  if ((65 <=? n) && (n <=? 90))%nat then ascii_of_nat (n + 32) else c.

Fixpoint ascii_ToLower (s : string) : string :=
  match s with
  | EmptyString => EmptyString
  | String c rest => String (ascii_lower c) (ascii_ToLower rest)
  end.

(** A disk that never fails, a Language Source that answers from a table
    (and fails for a URL that is not in it), paths in the working
    directory, ASCII language names. *)
Definition memEnv (answers : gmap string (gmap string Z)) : Env := {|
  ToLower := ascii_ToLower;
  filepath_Dir := λ _, ".";
  FileSystem := gmap string string;
  os_MkdirAll := λ _ fs, (None, fs);
  os_WriteFile := λ path data fs, (None, <[path := data]> fs);
  getJSON_languages := λ url _,
    match answers !! url with
    | Some langs => inr langs
    | None => inl "request failed: 404 Not Found: "
    end;
|}.

(** Two repositories and the answers of the Language Source for them. *)
Definition repoA : repo := mkRepo "site" "octocat/site" false false.
Definition repoB : repo := mkRepo "tool" "octocat/tool" false false.

Definition answersAB : gmap string (gmap string Z) :=
  list_to_map [
    ("https://api.github.com/repos/octocat/site/languages",
     list_to_map [("Go", 200); ("HTML", 10)]);
    ("https://api.github.com/repos/octocat/tool/languages",
     list_to_map [("Go", 100); ("Python", 100); ("TeX", 50)]) ].

(** ** The rest of the program *)


(** *** The Repository Source *)

Section repository_source.
(** [getJSON(client, url, token, &batch)] for a [[]repo]: what the
    Repository Source answers at [url]. *)
Variable getJSON_repos : string → string → error + list repo.

(** The [url] of [fetchRepos] for a page. *)
Definition reposURL (owner : string) (useOrg : bool) (page : Z) : string :=
  let base := "https://api.github.com" in
  let endpoint := Sprintf "/users/%s/repos" [ArgStr owner] in
  let endpoint :=
    if useOrg then Sprintf "/orgs/%s/repos" [ArgStr owner] else endpoint in
  Sprintf "%s%s?per_page=100&page=%d" [ArgStr base; ArgStr endpoint; ArgInt page].

(** The loop of [fetchRepos] from [page] on, [all] being the repositories
    collected so far.  The loop has no bound of its own: [fuel] bounds the
    number of pages requested, and [None] says that the loop is still
    running when the fuel is spent. *)
Fixpoint fetchReposLoop (fuel : nat) (owner token : string) (useOrg : bool)
    (page : Z) (all : list repo) : option (error + list repo) :=
  match fuel with
  | O => None
  | S fuel' =>
      match getJSON_repos (reposURL owner useOrg page) token with
      | inl err => Some (inl err)
      | inr batch =>
          if (length batch =? 0)%nat then Some (inr all)
          else fetchReposLoop fuel' owner token useOrg (page + 1) (all ++ batch)
      end
  end.

Definition fetchRepos (fuel : nat) (owner token : string) (useOrg : bool)
    : option (error + list repo) :=
  fetchReposLoop fuel owner token useOrg 1 [].

End repository_source.

(** *** Flags *)

(** [type stringFlag struct { val string; set bool }] *)
Record stringFlag : Type := mkStringFlag { string_val : string; string_set : bool }.
(** [type boolFlag struct { val bool; set bool }] *)
Record boolFlag : Type := mkBoolFlag { bool_val : bool; bool_set : bool }.
(** [type intFlag struct { val int; set bool }] *)
Record intFlag : Type := mkIntFlag { int_val : Z; int_set : bool }.

(** [strconv.ParseBool] *)
Definition ParseBool (str : string) : option bool :=
  if bool_decide (str ∈ ["1"; "t"; "T"; "true"; "TRUE"; "True"]) then Some true
  else if bool_decide (str ∈ ["0"; "f"; "F"; "false"; "FALSE"; "False"]) then Some false
  else None.

Definition digitValue (c : ascii) : option Z :=
  let n := nat_of_ascii c in
  if ((48 <=? n) && (n <=? 57))%nat then Some (Z.of_nat n - 48) else None.

Fixpoint parseDigits (acc : Z) (s : string) : option Z :=
  match s with
  | EmptyString => Some acc
  | String c rest =>
      match digitValue c with
      | Some d => parseDigits (acc * 10 + d) rest
      | None => None
      end
  end.

(** [strconv.Atoi] on a platform with 64-bit [int]: an optional sign and at
    least one decimal digit, and a value that fits an [int]; [None] is a
    syntax or range error. *)
Definition Atoi (s : string) : option Z :=
  let parse (negative : bool) (digits : string) : option Z :=
    match digits with
    | EmptyString => None
    | _ =>
        match parseDigits 0 digits with
        | Some n =>
            let v := if negative then - n else n in
            if (- 2 ^ 63 <=? v) && (v <=? 2 ^ 63 - 1) then Some v else None
        | None => None
        end
    end in
  match s with
  | String "+"%char rest => parse false rest
  | String "-"%char rest => parse true rest
  | _ => parse false s
  end.

Definition parseBool (value : string) : error + bool :=
  match ParseBool value with
  | Some parsed => inr parsed
  | None => inl (Sprintf "invalid bool: %s" [ArgStr value])
  end.

Definition parseInt (value : string) : error + Z :=
  match Atoi value with
  | Some parsed => inr parsed
  | None => inl (Sprintf "invalid int: %s" [ArgStr value])
  end.

(** The methods [Set]: the error returned (if any) and the flag after the
    call. *)
Definition stringFlag_Set (value : string) (s : stringFlag) : option error * stringFlag :=
  (None, mkStringFlag value true).

Definition boolFlag_Set (value : string) (b : boolFlag) : option error * boolFlag :=
  match parseBool value with
  | inl err => (Some err, b)
  | inr parsed => (None, mkBoolFlag parsed true)
  end.

Definition intFlag_Set (value : string) (i : intFlag) : option error * intFlag :=
  match parseInt value with
  | inl err => (Some err, i)
  | inr parsed => (None, mkIntFlag parsed true)
  end.

(** The methods [String]; [%t] prints [true] or [false]. *)
Definition stringFlag_String (s : stringFlag) : string := string_val s.
Definition boolFlag_String (b : boolFlag) : string :=
  if bool_val b then "true" else "false".
Definition intFlag_String (i : intFlag) : string := Sprintf "%d" [ArgInt (int_val i)].

(** *** The configuration *)

(** [strings.Split(s, sep)] for a separator of one byte: the pieces of [s]
    between the occurrences of the separator, at least one piece. *)
Fixpoint Split (s : string) (sep : ascii) : list string :=
  match s with
  | EmptyString => [EmptyString]
  | String c rest =>
      if Ascii.eqb c sep then EmptyString :: Split rest sep
      else match Split rest sep with
           | piece :: pieces => String c piece :: pieces
           | [] => [String c EmptyString]
           end
  end.

(** [type config struct] as [loadConfig] returns it, before [mergeConfig]:
    the pointer [ShowOther] may be nil. *)
Record fileConfig : Type := mkFileConfig {
  file_Username : string;
  file_Token : string;
  file_Output : string;
  file_IncludeForks : bool;
  file_IncludeArchived : bool;
  file_Org : bool;
  file_ShowOther : option bool;
  file_Exclude : list string;
  file_Top : Z;
}.

Section configuration.
(** [strings.TrimSpace] *)
Variable TrimSpace : string → string.

Definition splitCSV (value : string) : list string :=
  if String.eqb (TrimSpace value) "" then []
  else
    foldl (λ out part,
             let trimmed := TrimSpace part in
             if String.eqb trimmed "" then out else out ++ [trimmed])
          [] (Split value ","%char).

Definition mergeConfig (cfg : fileConfig) (username token output : stringFlag)
    (includeForks includeArchived useOrg showOther : boolFlag)
    (exclude : stringFlag) (top : intFlag) : config :=
  let Username := if string_set username then string_val username else file_Username cfg in
  let Token := if string_set token then string_val token else file_Token cfg in
  let Output := if string_set output then string_val output else file_Output cfg in
  let IncludeForks :=
    if bool_set includeForks then bool_val includeForks else file_IncludeForks cfg in
  let IncludeArchived :=
    if bool_set includeArchived then bool_val includeArchived
    else file_IncludeArchived cfg in
  let Org := if bool_set useOrg then bool_val useOrg else file_Org cfg in
  let ShowOther :=
    if bool_set showOther then Some (bool_val showOther) else file_ShowOther cfg in
  let Exclude :=
    if string_set exclude then splitCSV (string_val exclude) else file_Exclude cfg in
  let Top := if int_set top then int_val top else file_Top cfg in
  let Output := if String.eqb Output "" then "lang-rank.svg" else Output in
  let ShowOther := match ShowOther with Some b => b | None => true end in
  mkConfig Username Token Output IncludeForks IncludeArchived Org ShowOther Exclude Top.

End configuration.

(** [strings.TrimSpace] on text whose white space is ASCII: the white space
    of ASCII is tab, line feed, vertical tab, form feed, carriage return and
    space. *)
Definition asciiSpace (c : ascii) : bool :=
  let n := nat_of_ascii c in
  ((9 <=? n) && (n <=? 13) || (n =? 32))%nat.

Fixpoint trimLeft (s : string) : string :=
  match s with
  | EmptyString => EmptyString
  | String c rest => if asciiSpace c then trimLeft rest else s
  end.

Fixpoint trimRight (s : string) : string :=
  match s with
  | EmptyString => EmptyString
  | String c rest =>
      match trimRight rest with
      | EmptyString => if asciiSpace c then EmptyString else String c EmptyString
      | rest' => String c rest'
      end
  end.

Definition ascii_TrimSpace (s : string) : string := trimRight (trimLeft s).

(** A Repository Source with one page of two repositories for the user
    octocat, and one that never answers an empty page. *)
Definition twoPageSource (url token : string) : error + list repo :=
  if String.eqb url "https://api.github.com/users/octocat/repos?per_page=100&page=1"
  then inr [repoA; repoB]
  else if String.eqb url "https://api.github.com/users/octocat/repos?per_page=100&page=2"
  then inr []
  else inl "request failed: 404 Not Found: ".

Definition endlessSource (url token : string) : error + list repo := inr [repoA].

(** ** Vocabulary of the specification *)

(** [not_after less a b]: [less] does not put [b] before [a]. *)
Definition not_after {A : Type} (less : A → A → bool) (a b : A) : Prop :=
  less b a = false.

(** The order of the Ranker in the words of the specification: higher byte
    count first, and among equal byte counts the lexicographically smaller
    name first. *)
Definition precedes (a b : langStat) : Prop :=
  Bytes b < Bytes a ∨ (Bytes a = Bytes b ∧ String.ltb (Lang a) (Lang b) = true).

(** The sum of the byte counts as a mathematical integer. *)
Definition byteSum (l : list langStat) : Z :=
  foldr (λ item acc, Bytes item + acc) 0 l.

(** A sequence of entries of the data model: no byte count is negative, and
    the total fits an [int64]. *)
Definition wellFormed (l : list langStat) : Prop :=
  Forall (λ item, 0 <= Bytes item) l ∧ byteSum l <= 2 ^ 63 - 1.

Section vocabulary.
Context `{Env}.

(** [excludedBy excludes lang]: the language name equals one of the exclude
    terms up to case. *)
Definition excludedBy (excludes : list string) (lang : string) : Prop :=
  Exists (λ term, ToLower term = ToLower lang) excludes.

(** The exclude term that stands for a language in the report: the last
    term of the list that equals the language name up to case. *)
Definition reportedTerm (excludes : list string) (lang : string) : option string :=
  last (filter (λ term, ToLower term = ToLower lang) excludes).

(** The color of the entry at rank [i] in the words of the specification:
    the table entry of the lower-cased name, else the palette color at
    position [i] modulo the size of the palette. *)
Definition entryColor (i : nat) (item : langStat) : string :=
  default (nth (i mod 6) colors "") (languageColors !! ToLower (Lang item)).

(** The indices and entries that get a segment: those whose width does not
    round to zero. *)
Definition visibleEntries (barWidth totalBytes : Z) (ranked : list langStat)
    : list (nat * langStat) :=
  filter (λ e, rawSegmentWidth barWidth (Bytes e.2) totalBytes ≠ 0)
         (imap pair ranked).

End vocabulary.

(** The names of the languages that are in [before] and no longer in
    [after], in increasing order. *)
Definition removedLanguages (before after : gmap string Z) : list string :=
  sort_Strings (elements (dom before ∖ dom after)).

(** The escaped equivalent of a byte, in the words of the specification. *)
Definition escapedForm (c : ascii) : string :=
  if Ascii.eqb c "&"%char then "&amp;"
  else if Ascii.eqb c "<"%char then "&lt;"
  else if Ascii.eqb c ">"%char then "&gt;"
  else if Ascii.eqb c dquote then "&quot;"
  else if Ascii.eqb c "'"%char then "&apos;"
  else String c EmptyString.

Definition specials : list ascii :=
  ["&"%char; "<"%char; ">"%char; dquote; "'"%char].

Definition entities : list string :=
  ["&amp;"; "&lt;"; "&gt;"; "&quot;"; "&apos;"].

(** Text without a raw special character: a sequence of bytes that are not
    special and of escaped equivalents. *)
Inductive Escaped : string → Prop :=
  | Escaped_nil : Escaped EmptyString
  | Escaped_plain c s : c ∉ specials → Escaped s → Escaped (String c s)
  | Escaped_entity e s : e ∈ entities → Escaped s → Escaped (e +:+ s).

(** The segments of a bar are contiguous from position [x]: each starts
    where the one before ends. *)
Fixpoint contiguousFrom (x : Z) (segments : list barSegment) : Prop :=
  match segments with
  | [] => True
  | s :: rest => seg_x s = x ∧ contiguousFrom (x + seg_width s) rest
  end.

(** The sum of the widths of the segments. *)
Definition totalWidth (segments : list barSegment) : Z :=
  foldr (λ s acc, seg_width s + acc) 0 segments.

(** The mapping that [fetchLanguages] returns, if it returns one. *)
Definition totalOf (r : error + gmap string Z) : option (gmap string Z) :=
  match r with
  | inr total => Some total
  | inl _ => None
  end.



(** A string without any of the five characters that [escapeText]
    replaces. *)
Definition plainText (s : string) : Prop :=
  Forall (λ c, c ∉ specials) (list_ascii_of_string s).

(** The sum over the repositories' answers of the bytes of one language (a
    repository without the language counts 0). *)
Definition langSum (answers : list (gmap string Z)) (lang : string) : Z :=
  foldr (λ langs acc, default 0 (langs !! lang) + acc) 0 answers.

(** Two tiles of the grid do not overlap: one lies entirely to the left of
    or above the other. *)
Definition tilesApart (tileWidth : Z) (t1 t2 : tile) : Prop :=
  tile_x t1 + tileWidth <= tile_x t2 ∨ tile_x t2 + tileWidth <= tile_x t1
  ∨ tile_y t1 + tileHeight <= tile_y t2 ∨ tile_y t2 + tileHeight <= tile_y t1.

(** A tile lies inside the canvas of the image. *)
Definition insideCanvas (tileWidth : Z) (t : tile) : Prop :=
  0 <= tile_x t ∧ tile_x t + tileWidth <= width
  ∧ 0 <= tile_y t ∧ tile_y t + tileHeight <= height.

(** * Part II: properties *)

(** ** Machine integers *)

Lemma wrap64_small z : in_int64 z → wrap64 z = z.
Proof.
  unfold in_int64, wrap64. intros Hz.
  rewrite Z.mod_small; lia.
Qed.

Lemma wrap64_add_l a b : wrap64 (wrap64 a + b) = wrap64 (a + b).
Proof.
  unfold wrap64.
  replace ((a + 2 ^ 63) mod 2 ^ 64 - 2 ^ 63 + b + 2 ^ 63)
    with ((a + 2 ^ 63) mod 2 ^ 64 + b) by lia.
  rewrite Zplus_mod_idemp_l. do 2 f_equal. lia.
Qed.

Lemma wrap64_add_r a b : wrap64 (a + wrap64 b) = wrap64 (a + b).
Proof. rewrite (Z.add_comm a), wrap64_add_l. f_equal. lia. Qed.

Lemma add64_comm a b : add64 a b = add64 b a.
Proof. unfold add64. f_equal. lia. Qed.

Lemma add64_assoc a b c : add64 (add64 a b) c = add64 a (add64 b c).
Proof. unfold add64. rewrite wrap64_add_l, wrap64_add_r. f_equal. lia. Qed.

Lemma wrap64_in_int64 z : in_int64 (wrap64 z).
Proof.
  unfold in_int64, wrap64.
  pose proof (Z.mod_pos_bound (z + 2 ^ 63) (2 ^ 64) ltac:(lia)). lia.
Qed.

(** The loop that sums byte counts computes the mathematical sum modulo
    2^64. *)
Lemma sumBytes_from acc l :
  in_int64 acc →
  foldl (λ acc item, add64 acc (Bytes item)) acc l = wrap64 (acc + byteSum l).
Proof.
  revert acc. induction l as [|x l IH]; intros acc Hacc; simpl.
  - by rewrite Z.add_0_r, wrap64_small.
  - rewrite IH by apply wrap64_in_int64.
    unfold add64. rewrite wrap64_add_l. f_equal. lia.
Qed.

Lemma sumBytes_wrap l : sumBytes l = wrap64 (byteSum l).
Proof. unfold sumBytes. rewrite sumBytes_from; [done|]. unfold in_int64. lia. Qed.

Lemma byteSum_nonneg l : Forall (λ item, 0 <= Bytes item) l → 0 <= byteSum l.
Proof. induction 1; simpl; lia. Qed.

Lemma byteSum_app l1 l2 : byteSum (l1 ++ l2) = byteSum l1 + byteSum l2.
Proof. induction l1; simpl; lia. Qed.

Lemma sumBytes_wellFormed l : wellFormed l → sumBytes l = byteSum l.
Proof.
  intros [Hpos Hmax]. rewrite sumBytes_wrap. apply wrap64_small.
  pose proof (byteSum_nonneg l Hpos). unfold in_int64. lia.
Qed.

Lemma wellFormed_drop l n : wellFormed l → wellFormed (drop n l).
Proof.
  intros [Hpos Hmax]. rewrite <- (take_drop n l) in Hpos, Hmax.
  apply Forall_app in Hpos as [Hpos1 Hpos2]. rewrite byteSum_app in Hmax.
  split; [done|]. pose proof (byteSum_nonneg _ Hpos1). lia.
Qed.

(** ** Byte-wise order of strings *)

Lemma ascii_compare_refl c : Ascii.compare c c = Eq.
Proof. apply N.compare_refl. Qed.

Lemma ascii_compare_lt_trans a b c :
  Ascii.compare a b = Lt → Ascii.compare b c = Lt → Ascii.compare a c = Lt.
Proof. unfold Ascii.compare. rewrite !N.compare_lt_iff. lia. Qed.

Lemma string_compare_refl s : String.compare s s = Eq.
Proof. induction s as [|c s IH]; simpl; [done|]. by rewrite ascii_compare_refl. Qed.

Lemma string_compare_lt_trans s1 s2 s3 :
  String.compare s1 s2 = Lt → String.compare s2 s3 = Lt → String.compare s1 s3 = Lt.
Proof.
  revert s2 s3. induction s1 as [|c1 s1 IH]; intros [|c2 s2] [|c3 s3]; simpl; try done.
  destruct (Ascii.compare c1 c2) eqn:H12; try done;
    destruct (Ascii.compare c2 c3) eqn:H23; try done.
  - apply Ascii.compare_eq_iff in H12, H23. subst.
    rewrite ascii_compare_refl. apply IH.
  - apply Ascii.compare_eq_iff in H12. subst. by rewrite H23.
  - apply Ascii.compare_eq_iff in H23. subst. by rewrite H12.
  - by rewrite (ascii_compare_lt_trans _ _ _ H12 H23).
Qed.

Lemma string_ltb_irrefl s : String.ltb s s = false.
Proof. unfold String.ltb. by rewrite string_compare_refl. Qed.

Lemma string_ltb_trans s1 s2 s3 :
  String.ltb s1 s2 = true → String.ltb s2 s3 = true → String.ltb s1 s3 = true.
Proof.
  unfold String.ltb. intros H12 H23.
  destruct (String.compare s1 s2) eqn:E12; try done.
  destruct (String.compare s2 s3) eqn:E23; try done.
  by rewrite (string_compare_lt_trans _ _ _ E12 E23).
Qed.

Lemma string_ltb_total s1 s2 :
  String.ltb s1 s2 = false → String.ltb s2 s1 = false → s1 = s2.
Proof.
  unfold String.ltb. rewrite (String.compare_antisym s2 s1).
  destruct (String.compare s1 s2) eqn:E; try done.
  intros _ _. by apply String.compare_eq_iff.
Qed.

(** ** Sorting *)

Lemma StronglySorted_weaken {A} (R R' : relation A) (l : list A) :
  (∀ a b, R a b → R' a b) → StronglySorted R l → StronglySorted R' l.
Proof.
  intros HR. induction 1 as [|x l Hl IH Hx]; constructor; [done|].
  eapply Forall_impl; [exact Hx|]. auto.
Qed.

Section sort_facts.
Context {A : Type} (lt : A → A → bool).

Lemma sort_insert_Permutation x l : sort_insert lt x l ≡ₚ x :: l.
Proof.
  induction l as [|y l IH]; simpl; [done|].
  destruct (lt x y); [done|]. rewrite IH. apply Permutation_swap.
Qed.

Lemma sort_Slice_Permutation l : sort_Slice lt l ≡ₚ l.
Proof.
  induction l as [|x l IH]; simpl; [done|].
  by rewrite sort_insert_Permutation, IH.
Qed.

Hypothesis lt_irrefl : ∀ a, lt a a = false.
Hypothesis lt_trans : ∀ a b c, lt a b = true → lt b c = true → lt a c = true.
Hypothesis lt_total : ∀ a b, lt a b = false → lt b a = false → a = b.

Lemma lt_asym a b : lt a b = true → lt b a = false.
Proof.
  intros Hab. destruct (lt b a) eqn:Hba; [|done].
  by rewrite <- (lt_irrefl a), (lt_trans a b a).
Qed.

Lemma not_after_trans a b c :
  not_after lt a b → not_after lt b c → not_after lt a c.
Proof.
  unfold not_after. intros Hba Hcb.
  destruct (lt c a) eqn:Hca; [|done].
  destruct (lt a b) eqn:Hab.
  - by rewrite (lt_trans c a b) in Hcb.
  - rewrite (lt_total a b) in Hca by done. congruence.
Qed.

Lemma sort_insert_sorted x l :
  StronglySorted (not_after lt) l → StronglySorted (not_after lt) (sort_insert lt x l).
Proof.
  induction 1 as [|y l Hl IH Hy]; simpl.
  - repeat constructor.
  - destruct (lt x y) eqn:Hxy.
    + constructor; [by constructor|].
      pose proof (lt_asym _ _ Hxy) as Hyx.
      constructor; [done|].
      eapply Forall_impl; [exact Hy|]. intros z Hz.
      by apply (not_after_trans x y z).
    + constructor; [done|].
      rewrite sort_insert_Permutation. by constructor.
Qed.

Lemma sort_Slice_sorted l : StronglySorted (not_after lt) (sort_Slice lt l).
Proof.
  induction l as [|x l IH]; simpl; [constructor|]. by apply sort_insert_sorted.
Qed.

(** Any ordering of the slice that respects [lt] is the one computed: a
    sort has no choice to make. *)
Lemma sort_Slice_unique l l' :
  l' ≡ₚ l → StronglySorted (not_after lt) l' → l' = sort_Slice lt l.
Proof.
  intros Hperm Hsorted.
  apply (StronglySorted_unique_strong (not_after lt)); [|done|apply sort_Slice_sorted|].
  - intros a b _ _ Hab Hba. by apply lt_total.
  - by rewrite sort_Slice_Permutation.
Qed.

Lemma sort_Slice_proper l1 l2 : l1 ≡ₚ l2 → sort_Slice lt l1 = sort_Slice lt l2.
Proof.
  intros Hperm. apply sort_Slice_unique; [|apply sort_Slice_sorted].
  by rewrite sort_Slice_Permutation.
Qed.

Lemma sorted_NoDup_strict l :
  NoDup l → StronglySorted (not_after lt) l → StronglySorted (λ a b, lt a b = true) l.
Proof.
  intros Hnd Hs. induction Hs as [|x l Hl IH Hx]; [constructor|].
  apply NoDup_cons in Hnd as [Hx' Hnd].
  constructor; [by apply IH|].
  apply Forall_forall. intros y Hy.
  rewrite Forall_forall in Hx. specialize (Hx y Hy).
  destruct (lt x y) eqn:Hxy; [done|].
  rewrite (lt_total x y) in Hx' by done. done.
Qed.

End sort_facts.

(** ** The Ranker *)

Lemma less_precedes a b : less a b = true ↔ precedes a b.
Proof.
  unfold less, precedes. destruct (Z.eqb_spec (Bytes a) (Bytes b)) as [Heq|Hne].
  - split; [intros; right; done|]. intros [?|[_ ?]]; [lia|done].
  - rewrite Z.gtb_gt. split; [intros; left; lia|]. intros [?|[? _]]; [lia|done].
Qed.

Lemma less_irrefl a : less a a = false.
Proof. unfold less. by rewrite Z.eqb_refl, string_ltb_irrefl. Qed.

Lemma less_trans a b c : less a b = true → less b c = true → less a c = true.
Proof.
  rewrite !less_precedes. unfold precedes.
  intros [Hab|[Hab Hab']] [Hbc|[Hbc Hbc']]; try (left; lia).
  right. split; [lia|]. by apply (string_ltb_trans _ (Lang b)).
Qed.

Lemma less_total a b : less a b = false → less b a = false → a = b.
Proof.
  unfold less. rewrite (Z.eqb_sym (Bytes b)).
  destruct (Z.eqb_spec (Bytes a) (Bytes b)) as [Heq|Hne].
  - intros Hab Hba. destruct a, b; simpl in *. f_equal; [|done].
    by apply string_ltb_total.
  - rewrite !Z.gtb_ltb, !Z.ltb_ge. lia.
Qed.

Lemma precedes_irrefl a : ¬ precedes a a.
Proof. rewrite <- less_precedes, less_irrefl. done. Qed.

Lemma precedes_trans a b c : precedes a b → precedes b c → precedes a c.
Proof. rewrite <- !less_precedes. apply less_trans. Qed.

Lemma precedes_total a b : a ≠ b → precedes a b ∨ precedes b a.
Proof.
  intros Hne. rewrite <- !less_precedes.
  destruct (less a b) eqn:Hab; [by left|].
  destruct (less b a) eqn:Hba; [by right|].
  destruct Hne. by apply less_total.
Qed.

Lemma rankLanguages_stats (acc : list langStat) (iter : list (string * Z)) :
  foldl (λ stats e, stats ++ [mkLangStat e.1 e.2]) acc iter
  = acc ++ ((λ e, mkLangStat e.1 e.2) <$> iter).
Proof.
  revert acc. induction iter as [|e iter IH]; intros acc; simpl.
  - by rewrite app_nil_r.
  - by rewrite IH, <- app_assoc.
Qed.

Lemma rankLanguagesFrom_Permutation iter :
  rankLanguagesFrom iter ≡ₚ (λ e, mkLangStat e.1 e.2) <$> iter.
Proof.
  unfold rankLanguagesFrom. by rewrite sort_Slice_Permutation, rankLanguages_stats.
Qed.

Lemma rankLanguagesFrom_proper iter1 iter2 :
  iter1 ≡ₚ iter2 → rankLanguagesFrom iter1 = rankLanguagesFrom iter2.
Proof.
  intros Hperm. unfold rankLanguagesFrom.
  apply (sort_Slice_proper less less_irrefl less_trans less_total).
  rewrite !rankLanguages_stats. simpl. by rewrite Hperm.
Qed.

Lemma rankLanguages_elem_of total lang bytes :
  mkLangStat lang bytes ∈ rankLanguages total ↔ total !! lang = Some bytes.
Proof.
  unfold rankLanguages. rewrite rankLanguagesFrom_Permutation.
  rewrite list_elem_of_fmap. split.
  - intros [[lang' bytes'] [[= -> ->] Hin]]. by apply elem_of_map_to_list in Hin.
  - intros Hin. exists (lang, bytes). split; [done|]. by apply elem_of_map_to_list.
Qed.

Lemma rankLanguages_NoDup total : NoDup (rankLanguages total).
Proof.
  unfold rankLanguages. rewrite rankLanguagesFrom_Permutation.
  apply NoDup_fmap_2; [|apply NoDup_map_to_list].
  intros [l1 b1] [l2 b2] [= -> ->]. done.
Qed.

Lemma rankLanguages_sorted total : StronglySorted precedes (rankLanguages total).
Proof.
  eapply StronglySorted_weaken; [intros a b; apply less_precedes|].
  apply (sorted_NoDup_strict less less_total); [apply rankLanguages_NoDup|].
  apply (sort_Slice_sorted less less_irrefl less_trans less_total).
Qed.

Lemma StronglySorted_neighbours {A} (R : relation A) (l : list A) i a b :
  StronglySorted R l → l !! i = Some a → l !! S i = Some b → R a b.
Proof.
  intros Hs. revert i. induction Hs as [|x l Hl IH Hx]; intros i; [done|].
  destruct i as [|i]; simpl.
  - intros [= ->] Hb. rewrite Forall_forall in Hx. apply Hx.
    apply list_elem_of_lookup. by exists 0%nat.
  - apply IH.
Qed.

(** C1. For every language-to-bytes mapping, and for every order [iter] in
    which the loop of [rankLanguages] may visit its entries, the result is
    the same sequence; it holds exactly the entries of the mapping, each
    once, and it is ordered by the strict total order [precedes]: an entry
    with a higher byte count comes before one with a lower byte count, and
    among entries with equal byte counts the lexicographically smaller
    language name comes first.  In particular neighbours have decreasing (or
    equal) byte counts, and equal-byte neighbours have increasing names. *)
Theorem rankLanguages_strict_total_order (total : gmap string Z)
    (iter : list (string * Z)) :
  iter ≡ₚ map_to_list total →
  rankLanguagesFrom iter = rankLanguages total
  ∧ (∀ lang bytes,
       mkLangStat lang bytes ∈ rankLanguages total ↔ total !! lang = Some bytes)
  ∧ NoDup (rankLanguages total)
  ∧ StronglySorted precedes (rankLanguages total)
  ∧ (∀ i a b,
       rankLanguages total !! i = Some a → rankLanguages total !! S i = Some b →
       Bytes b <= Bytes a
       ∧ (Bytes a = Bytes b → String.ltb (Lang a) (Lang b) = true))
  ∧ (∀ a b, ¬ precedes a a
            ∧ (∀ c, precedes a b → precedes b c → precedes a c)
            ∧ (a ≠ b → precedes a b ∨ precedes b a)).
Proof.
  intros Hperm. split; [by apply rankLanguagesFrom_proper|].
  split; [apply rankLanguages_elem_of|].
  split; [apply rankLanguages_NoDup|].
  split; [apply rankLanguages_sorted|].
  split.
  - intros i a b Ha Hb.
    pose proof (StronglySorted_neighbours _ _ _ _ _ (rankLanguages_sorted total) Ha Hb)
      as [Hlt|[Heq Hname]]; split; try lia; done.
  - intros a b. split; [apply precedes_irrefl|].
    split; [intros c; apply precedes_trans|apply precedes_total].
Qed.

Lemma rankLanguages_strict_total_order_witness :
  rankLanguagesFrom
    (reverse (map_to_list (list_to_map [("TeX", 50); ("Go", 300); ("C", 50)] : gmap string Z)))
  = [mkLangStat "Go" 300; mkLangStat "C" 50; mkLangStat "TeX" 50].
Proof.
  rewrite (proj1 (rankLanguages_strict_total_order _ _ (reverse_Permutation _))).
  vm_compute. reflexivity.
Defined.

(** ** The Bucketizer *)

Lemma collapseOthers_unchanged ranked top showOther :
  top <= 0 ∨ Z.of_nat (length ranked) <= top →
  collapseOthers ranked top showOther = ranked.
Proof.
  intros Htop. unfold collapseOthers.
  destruct (Z.leb_spec top 0); [done|].
  destruct (Z.leb_spec (Z.of_nat (length ranked)) top); [done|lia].
Qed.

Lemma collapseOthers_collapsed ranked top showOther :
  0 < top < Z.of_nat (length ranked) →
  collapseOthers ranked top showOther
  = take (Z.to_nat top) ranked ++
    (if showOther && (0 <? sumBytes (drop (Z.to_nat top) ranked))
     then [mkLangStat "Other" (sumBytes (drop (Z.to_nat top) ranked))] else []).
Proof.
  intros Htop. unfold collapseOthers.
  destruct (Z.leb_spec top 0); [lia|].
  destruct (Z.leb_spec (Z.of_nat (length ranked)) top); [lia|]. simpl.
  destruct showOther; simpl; [|by rewrite app_nil_r].
  destruct (0 <? _); [done|by rewrite app_nil_r].
Qed.

(** The guard around the call in [main] repeats the test that
    [collapseOthers] makes itself. *)
Lemma collapseOthers_guarded ranked top showOther :
  (if (0 <? top) && (top <? Z.of_nat (length ranked))
   then collapseOthers ranked top showOther else ranked)
  = collapseOthers ranked top showOther.
Proof.
  destruct (Z.ltb_spec 0 top); simpl;
    [destruct (Z.ltb_spec top (Z.of_nat (length ranked))); [done|]|];
    symmetry; apply collapseOthers_unchanged; lia.
Qed.





(** ** The Excluder *)

Section excluder_facts.
Context `{Env}.

Lemma normalizeExcludes_from excludes (m : gmap string string) key :
  foldl (λ normalized item, <[ToLower item := item]> normalized) m excludes !! key
  = match last (filter (λ term, ToLower term = key) excludes) with
    | Some term => Some term
    | None => m !! key
    end.
Proof.
  revert m. induction excludes as [|term excludes IH]; intros m; simpl; [done|].
  rewrite IH, filter_cons. case_decide as Hterm.
  - rewrite last_cons. destruct (last _); [done|].
    subst key. apply lookup_insert_eq.
  - destruct (last _); [done|]. by apply lookup_insert_ne.
Qed.

Lemma normalizeExcludes_lookup excludes lang :
  normalizeExcludes excludes !! ToLower lang = reportedTerm excludes lang.
Proof.
  unfold normalizeExcludes, reportedTerm. rewrite normalizeExcludes_from.
  by destruct (last _).
Qed.

Lemma reportedTerm_Some excludes lang term :
  reportedTerm excludes lang = Some term →
  term ∈ excludes ∧ ToLower term = ToLower lang.
Proof.
  unfold reportedTerm. intros Hlast.
  assert (term ∈ filter (λ term, ToLower term = ToLower lang) excludes) as Hin.
  { apply last_Some in Hlast as [l' ->]. set_solver. }
  by apply list_elem_of_filter in Hin as [? ?].
Qed.

Lemma reportedTerm_is_Some excludes lang :
  is_Some (reportedTerm excludes lang) ↔ excludedBy excludes lang.
Proof.
  unfold excludedBy. rewrite Exists_exists. split.
  - intros [term Hterm]. exists term. by apply reportedTerm_Some in Hterm as [? ?].
  - intros (term & Hin & Hterm). unfold reportedTerm.
    destruct (last _) eqn:Hlast; [by eexists|].
    apply last_None in Hlast.
    assert (term ∈ filter (λ term, ToLower term = ToLower lang) excludes) as Hf
      by (by apply list_elem_of_filter).
    rewrite Hlast in Hf. by apply not_elem_of_nil in Hf.
Qed.

(** The loop of [applyExcludes] over the languages [iter]. *)
Lemma applyExcludes_loop (normalized : gmap string string) iter
    (m : gmap string Z) (acc : list string) :
  let st :=
    foldl (λ (st : gmap string Z * list string) lang,
             match normalized !! ToLower lang with
             | Some original => (delete lang st.1, st.2 ++ [original])
             | None => st
             end) (m, acc) iter in
  (∀ key, st.1 !! key
          = if decide (key ∈ iter ∧ is_Some (normalized !! ToLower key))
            then None else m !! key)
  ∧ st.2 = acc ++ omap (λ lang, normalized !! ToLower lang) iter.
Proof.
  revert m acc. induction iter as [|lang iter IH]; intros m acc; cbn [foldl].
  - split; [|by rewrite app_nil_r]. intros key. cbn [fst].
    case_decide as Hk; [|done].
    destruct Hk as [Hk _]. by apply not_elem_of_nil in Hk.
  - cbn [fst snd omap list_omap].
    destruct (normalized !! ToLower lang) as [original|] eqn:Hlang.
    + destruct (IH (delete lang m) (acc ++ [original])) as [IH1 IH2].
      split; [|by rewrite IH2, <- app_assoc].
      intros key. rewrite IH1.
      destruct (decide (key = lang)) as [->|Hne].
      * rewrite lookup_delete_eq.
        rewrite (decide_True (P := lang ∈ lang :: iter ∧ _)).
        -- by destruct (decide _).
        -- split; [apply elem_of_cons; by left|by rewrite Hlang].
      * rewrite lookup_delete_ne by done. apply decide_ext.
        rewrite elem_of_cons. tauto.
    + destruct (IH m acc) as [IH1 IH2]. split; [|done].
      intros key. rewrite IH1. apply decide_ext.
      split; [rewrite elem_of_cons; tauto|]. intros [Hin Hsome]. split; [|done].
      apply elem_of_cons in Hin as [->|Hin]; [|done].
      rewrite Hlang in Hsome. by apply is_Some_None in Hsome.
Qed.

Lemma applyExcludesFrom_map iter total excludes key :
  iter ≡ₚ (map_to_list total).*1 →
  (applyExcludesFrom iter total excludes).1 !! key
  = if decide (excludedBy excludes key) then None else total !! key.
Proof.
  intros Hiter. unfold applyExcludesFrom.
  destruct excludes as [|term excludes].
  - rewrite decide_False; [done|]. intros Hex. by apply Exists_nil in Hex.
  - set (excl := term :: excludes). cbn [length Nat.eqb].
    destruct (applyExcludes_loop (normalizeExcludes excl) iter total []) as [Hmap _].
    cbn [fst]. rewrite Hmap.
    destruct (decide (excludedBy excl key)) as [Hex|Hex].
    + destruct (total !! key) as [bytes|] eqn:Hkey; [|by destruct (decide _)].
      rewrite decide_True; [done|]. split.
      * rewrite Hiter. apply list_elem_of_fmap. exists (key, bytes).
        split; [done|]. by apply elem_of_map_to_list.
      * by rewrite normalizeExcludes_lookup, reportedTerm_is_Some.
    + rewrite decide_False; [done|]. intros [_ Hsome]. apply Hex.
      by rewrite normalizeExcludes_lookup, reportedTerm_is_Some in Hsome.
Qed.

Lemma applyExcludesFrom_removed iter total excludes :
  (applyExcludesFrom iter total excludes).2
  = sort_Strings (omap (reportedTerm excludes) iter).
Proof.
  unfold applyExcludesFrom. destruct excludes as [|term excludes]; simpl.
  - assert (omap (reportedTerm []) iter = []) as ->; [|done].
    induction iter as [|lang iter IH]; [done|]. by cbn.
  - set (excl := term :: excludes).
    destruct (applyExcludes_loop (normalizeExcludes excl) iter total []) as [_ ->].
    cbn [length Nat.eqb snd app]. f_equal. apply list_omap_ext.
    apply Forall2_same_length_lookup_2; [done|].
    intros i lang lang' Hl Hl'. rewrite Hl in Hl'. injection Hl' as <-.
    apply normalizeExcludes_lookup.
Qed.

Lemma sort_Strings_proper l1 l2 : l1 ≡ₚ l2 → sort_Strings l1 = sort_Strings l2.
Proof.
  apply (sort_Slice_proper String.ltb string_ltb_irrefl string_ltb_trans
           string_ltb_total).
Qed.

Lemma sort_Strings_sorted l : StronglySorted (not_after String.ltb) (sort_Strings l).
Proof.
  apply (sort_Slice_sorted String.ltb string_ltb_irrefl string_ltb_trans
           string_ltb_total).
Qed.

(** C5, as the code has it.  Whatever the order [iter] in which the loop
    visits the languages of the mapping: [applyExcludes] removes exactly the
    entries whose language name equals an exclude term up to case and leaves
    the other entries unchanged; it returns, in increasing order, one string
    for each removed entry, which is the exclude term that stands for the
    entry (the last term of the exclude list equal to the language name up
    to case), in the spelling of the exclude list and not in the spelling of
    the language name; a term that matches no entry contributes nothing. *)
Theorem applyExcludes_spec (total : gmap string Z) (excludes : list string)
    (iter : list string) :
  iter ≡ₚ (map_to_list total).*1 →
  let result := applyExcludesFrom iter total excludes in
  (∀ lang, result.1 !! lang
           = if decide (excludedBy excludes lang) then None else total !! lang)
  ∧ result.2 ≡ₚ omap (reportedTerm excludes) (map_to_list total).*1
  ∧ StronglySorted (not_after String.ltb) result.2
  ∧ (∀ term, term ∈ result.2 →
       term ∈ excludes
       ∧ ∃ lang, is_Some (total !! lang) ∧ ToLower term = ToLower lang)
  ∧ result = applyExcludes total excludes.
Proof.
  intros Hiter result.
  assert (result.2 ≡ₚ omap (reportedTerm excludes) (map_to_list total).*1) as Hperm.
  { unfold result. rewrite applyExcludesFrom_removed. unfold sort_Strings.
    by rewrite sort_Slice_Permutation, Hiter. }
  split; [intros lang; by apply applyExcludesFrom_map|].
  split; [done|].
  split; [unfold result; rewrite applyExcludesFrom_removed; apply sort_Strings_sorted|].
  split.
  - intros term Hterm. rewrite Hperm in Hterm.
    apply list_elem_of_omap in Hterm as (lang & Hlang & Hterm).
    apply reportedTerm_Some in Hterm as [Hin Hlow]. split; [done|].
    exists lang. split; [|done].
    apply list_elem_of_fmap in Hlang as ([lang' bytes] & -> & Hin').
    apply elem_of_map_to_list in Hin'. by eexists.
  - unfold applyExcludes, result. apply injective_projections.
    + apply map_eq. intros lang. by rewrite !applyExcludesFrom_map.
    + rewrite !applyExcludesFrom_removed. apply sort_Strings_proper.
      by rewrite Hiter.
Qed.

End excluder_facts.

(** The scenario of the specification, visiting the languages in another
    order than [applyExcludes] does: excluding "TeX" from Go 300, TeX 50
    leaves Go 300 and reports "TeX". *)
Lemma applyExcludes_spec_witness :
  let total : gmap string Z := list_to_map [("Go", 300); ("TeX", 50)] in
  applyExcludesFrom (H := memEnv ∅) (reverse (map_to_list total).*1) total ["TeX"]
  = ({[ "Go" := 300 ]}, ["TeX"]).
Proof.
  intros total.
  pose proof (applyExcludes_spec (H := memEnv ∅) total ["TeX"]
                (reverse (map_to_list total).*1) (reverse_Permutation _))
    as (_ & _ & _ & _ & Heq).
  rewrite Heq. vm_compute. reflexivity.
Defined.

(** C5 as the specification words it does not hold: the report carries the
    spelling of the exclude term, not the spelling of the language name.
    Excluding "tex" from Go 300, TeX 50 removes the language TeX and reports
    "tex". *)
Lemma applyExcludes_reports_terms_counterexample :
  let total : gmap string Z := list_to_map [("Go", 300); ("TeX", 50)] in
  let result := applyExcludes (H := memEnv ∅) total ["tex"] in
  result.1 = {[ "Go" := 300 ]}
  ∧ removedLanguages total result.1 = ["TeX"]
  ∧ result.2 = ["tex"]
  ∧ result.2 ≠ removedLanguages total result.1.
Proof. vm_compute. repeat split; try reflexivity. discriminate. Qed.

(** ** Escaping *)

Lemma escapeText_cons c s : escapeText (String c s) = escapedForm c +:+ escapeText s.
Proof.
  unfold escapeText, escapedForm. cbn [Replace replaceByte].
  by repeat destruct (Ascii.eqb c _).
Qed.

Lemma append_String a s t : String a s +:+ t = String a (s +:+ t).
Proof. reflexivity. Qed.

Lemma append_Empty t : "" +:+ t = t.
Proof. reflexivity. Qed.

Lemma string_append_empty_r s : s +:+ "" = s.
Proof. induction s as [|a s IH]; [done|]. by rewrite append_String, IH. Qed.

Lemma string_concat_cons x l : String.concat "" (x :: l) = x +:+ String.concat "" l.
Proof. destruct l; cbn; [by rewrite string_append_empty_r|done]. Qed.

Lemma escapeText_concat input :
  escapeText input = String.concat "" (escapedForm <$> list_ascii_of_string input).
Proof.
  induction input as [|c s IH]; [done|].
  rewrite escapeText_cons, IH. cbn [list_ascii_of_string].
  by rewrite fmap_cons, string_concat_cons.
Qed.

Lemma escapedForm_cases c :
  (c ∈ specials ∧ escapedForm c ∈ entities)
  ∨ (¬ (c ∈ specials) ∧ escapedForm c = String c EmptyString).
Proof.
  unfold escapedForm, specials, entities.
  destruct (Ascii.eqb_spec c "&"%char) as [->|H1];
    [left; split; apply list_elem_of_In; simpl; tauto|].
  destruct (Ascii.eqb_spec c "<"%char) as [->|H2];
    [left; split; apply list_elem_of_In; simpl; tauto|].
  destruct (Ascii.eqb_spec c ">"%char) as [->|H3];
    [left; split; apply list_elem_of_In; simpl; tauto|].
  destruct (Ascii.eqb_spec c dquote) as [->|H4];
    [left; split; apply list_elem_of_In; simpl; tauto|].
  destruct (Ascii.eqb_spec c "'"%char) as [->|H5];
    [left; split; apply list_elem_of_In; simpl; tauto|].
  right. split; [|done]. rewrite list_elem_of_In. simpl. intuition congruence.
Qed.

Lemma escapeText_Escaped input : Escaped (escapeText input).
Proof.
  induction input as [|c s IH]; [constructor|].
  rewrite escapeText_cons.
  destruct (escapedForm_cases c) as [[_ Hent]|[Hplain ->]].
  - by constructor.
  - by apply Escaped_plain.
Qed.

Lemma append_split_cons a s pre c post :
  String a s = pre +:+ String c post →
  (pre = EmptyString ∧ c = a ∧ post = s)
  ∨ ∃ pre', pre = String a pre' ∧ s = pre' +:+ String c post.
Proof.
  destruct pre as [|a' pre']; rewrite ?append_String, ?append_Empty;
    intros [= -> ->]; [by left|right; by eexists].
Qed.

(** In escaped text a special character only occurs as the first byte of
    an escaped equivalent. *)
Lemma Escaped_special s :
  Escaped s → ∀ pre c post,
  s = pre +:+ String c post → c ∈ specials →
  ∃ e rest, e ∈ entities ∧ String c post = e +:+ rest.
Proof.
  induction 1 as [|c0 s Hc0 Hs IH|e s He Hs IH]; intros pre c post Heq Hc.
  - by destruct pre.
  - apply append_split_cons in Heq as [(-> & -> & ->)|(pre' & -> & Heq)]; [done|].
    by eapply IH.
  - destruct pre as [|p pre]; [rewrite append_Empty in Heq; by exists e, s|].
    unfold entities in He.
    repeat (apply elem_of_cons in He as [->|He]);
      [..|by apply not_elem_of_nil in He];
      rewrite ?append_String, ?append_Empty in Heq;
      injection Heq as _ Heq;
      repeat (apply append_split_cons in Heq as [(-> & -> & ->)|(? & -> & Heq)];
              [exfalso; unfold specials in Hc;
               repeat (apply elem_of_cons in Hc as [Hc|Hc]; [discriminate|]);
               by apply not_elem_of_nil in Hc|]);
      by eapply IH.
Qed.

Lemma elem_of_string_split c s :
  c ∈ list_ascii_of_string s → ∃ pre post, s = pre +:+ String c post.
Proof.
  induction s as [|a s IH]; cbn [list_ascii_of_string];
    [by intros ?%not_elem_of_nil|].
  intros [->|Hin]%elem_of_cons.
  - by exists EmptyString, s.
  - destruct (IH Hin) as (pre & post & ->). by exists (String a pre), post.
Qed.

(** C7. For every input, [escapeText] replaces each ampersand, less-than,
    greater-than, double quote and single quote by its escaped equivalent
    and copies the other bytes.  The output consists of bytes that are none
    of these five characters and of escaped equivalents: a special character
    occurs in it only as the first byte of an escaped equivalent, so no raw
    less-than, greater-than or quote occurs at all, and every ampersand
    starts an escaped equivalent. *)
Theorem escapeText_no_raw (input : string) :
  escapeText input = String.concat "" (escapedForm <$> list_ascii_of_string input)
  ∧ Escaped (escapeText input)
  ∧ (∀ pre c post,
       escapeText input = pre +:+ String c post → c ∈ specials →
       ∃ e rest, e ∈ entities ∧ String c post = e +:+ rest)
  ∧ (∀ c, c ∈ ["<"%char; ">"%char; dquote; "'"%char] →
          c ∉ list_ascii_of_string (escapeText input)).
Proof.
  split; [apply escapeText_concat|].
  split; [apply escapeText_Escaped|].
  split; [apply Escaped_special, escapeText_Escaped|].
  intros c Hc Hin. apply elem_of_string_split in Hin as (pre & post & Heq).
  destruct (Escaped_special _ (escapeText_Escaped input) pre c post Heq)
    as (e & rest & He & Hrest).
  - unfold specials. apply list_elem_of_In. apply list_elem_of_In in Hc.
    simpl in *. tauto.
  - unfold entities in He.
    repeat (apply elem_of_cons in He as [->|He]);
      [..|by apply not_elem_of_nil in He];
      injection Hrest as -> _;
      repeat (apply elem_of_cons in Hc as [Hc|Hc]; [done|]);
      by apply not_elem_of_nil in Hc.
Qed.

(** ** Colors *)

Section renderer_facts.
Context `{Env}.

Lemma colorForLanguage_entryColor i item :
  colorForLanguage (Lang item) (fallbackColor i) = entryColor i item.
Proof. unfold colorForLanguage, entryColor. by destruct (languageColors !! _). Qed.

Lemma barLoop_colors len totalBytes barX barWidth items i accumX :
  seg_color <$> barLoop len totalBytes barX barWidth i items accumX
  = (λ e, entryColor e.1 e.2)
      <$> filter (λ e, rawSegmentWidth barWidth (Bytes e.2) totalBytes ≠ 0)
                 (imap (λ j, pair (i + j)%nat) items).
Proof.
  revert i accumX. induction items as [|item items IH]; intros i accumX; [done|].
  cbn [barLoop]. rewrite imap_cons, filter_cons. cbn [snd].
  rewrite (imap_ext _ (λ j, pair (S i + j)%nat)) by (intros; cbn; f_equal; lia).
  destruct (Z.eqb_spec (rawSegmentWidth barWidth (Bytes item) totalBytes) 0)
    as [Hzero|Hpos].
  - rewrite decide_False by (intros Hne; by apply Hne). apply IH.
  - rewrite decide_True by done. rewrite !fmap_cons, IH. cbn [fst snd seg_color].
    by rewrite colorForLanguage_entryColor, Nat.add_0_r.
Qed.

(** C8. For every ranked sequence, the color of the swatch of the tile at
    rank [i] is [entryColor i] of the entry: the color that the fixed table
    gives for the lower-cased language name and, when the table has none,
    the color of the fallback palette at position [i] modulo its length.
    The bar has one segment for each entry whose width does not round to
    zero, in rank order, and the color of the segment of the entry at rank
    [i] is the same [entryColor i]. *)
Theorem entry_color_consistent (ranked : list langStat) (nexcluded : nat) :
  tile_color <$> tiles ranked nexcluded = imap entryColor ranked
  ∧ seg_color <$> barSegments ranked nexcluded
    = (λ e, entryColor e.1 e.2)
        <$> visibleEntries (barWidth (computeLayout (length ranked) nexcluded))
                           (sumBytes ranked) ranked
  ∧ (∀ i item, entryColor i item
               = match languageColors !! ToLower (Lang item) with
                 | Some color => color
                 | None => nth (i mod length colors) colors ""
                 end).
Proof.
  split; [|split].
  - unfold tiles. apply list_eq. intros i.
    rewrite list_lookup_fmap, !list_lookup_imap.
    destruct (ranked !! i) as [item|]; [|done].
    cbn [fmap option_fmap option_map tileAt tile_color].
    by rewrite colorForLanguage_entryColor.
  - unfold barSegments, visibleEntries. by rewrite barLoop_colors.
  - intros i item. unfold entryColor. by destruct (languageColors !! _).
Qed.

(** ** The bar *)

Lemma barLoop_contiguous len totalBytes barX barWidth items i accumX :
  contiguousFrom accumX (barLoop len totalBytes barX barWidth i items accumX).
Proof.
  revert i accumX. induction items as [|item items IH]; intros i accumX; [done|].
  cbn [barLoop]. destruct (_ =? 0); [apply IH|].
  split; [done|]. apply IH.
Qed.

(** When the width of the last entry does not round to zero, the last
    segment ends at the end of the bar. *)
Lemma barLoop_fills len totalBytes barX barWidth items i accumX last_item :
  len = (i + length items)%nat →
  last items = Some last_item →
  rawSegmentWidth barWidth (Bytes last_item) totalBytes ≠ 0 →
  accumX + totalWidth (barLoop len totalBytes barX barWidth i items accumX)
  = barX + barWidth.
Proof.
  revert i accumX. induction items as [|item items IH]; intros i accumX Hlen Hlast Hw;
    [done|].
  cbn [barLoop]. destruct items as [|item' items].
  - injection Hlast as ->. apply Z.eqb_neq in Hw. rewrite Hw.
    replace (Z.of_nat i =? Z.of_nat len - 1) with true
      by (symmetry; apply Z.eqb_eq; simpl in Hlen; lia).
    cbn. lia.
  - rewrite last_cons_cons in Hlast.
    assert (len = (S i + length (item' :: items))%nat) as Hlen'
      by (simpl in *; lia).
    destruct (_ =? 0); [by apply IH|].
    replace (Z.of_nat i =? Z.of_nat len - 1) with false
      by (symmetry; apply Z.eqb_neq; simpl in Hlen; lia).
    cbn [totalWidth foldr seg_width]. fold (totalWidth (barLoop len totalBytes barX barWidth (S i) (item' :: items) (accumX + rawSegmentWidth barWidth (Bytes item) totalBytes))).
    rewrite <- (IH (S i) (accumX + rawSegmentWidth barWidth (Bytes item) totalBytes)
                  Hlen' Hlast Hw). lia.
Qed.

(** The segments of the bar are contiguous from the left end of the bar,
    and they sum to the bar width when the width of the last entry does not
    round to zero. *)
Lemma barSegments_fill_the_bar ranked nexcluded last_item :
  let ly := computeLayout (length ranked) nexcluded in
  contiguousFrom (barX ly) (barSegments ranked nexcluded)
  ∧ (last ranked = Some last_item →
     rawSegmentWidth (barWidth ly) (Bytes last_item) (sumBytes ranked) ≠ 0 →
     totalWidth (barSegments ranked nexcluded) = barWidth ly).
Proof.
  intros ly. split; [apply barLoop_contiguous|].
  intros Hlast Hw. unfold barSegments.
  pose proof (barLoop_fills (length ranked) (sumBytes ranked) (barX ly) (barWidth ly)
                ranked 0 (barX ly) last_item eq_refl Hlast Hw) as Hfill.
  fold ly. lia.
Qed.

(** ** Failure without data, and the owner label *)

Lemma writeSVG_no_data path ranked owner excluded fs :
  ranked = [] ∨ sumBytes ranked = 0 →
  writeSVG path ranked owner excluded fs = (Some no_data, fs).
Proof.
  intros [->|Hzero]; [done|]. unfold writeSVG.
  destruct (length ranked =? 0)%nat; [done|]. by rewrite Hzero.
Qed.

(** C6. [writeSVG] returns the error "no language data to chart" and leaves
    the files as they are whenever the ranked sequence is empty or the sum
    of its byte counts is zero; and when no repository is left after
    filtering, the run ends with exit status 1 and the message "no
    repositories after filtering", having printed no table and written no
    file. *)
Theorem no_data_fails (path : string) (ranked : list langStat) (owner : string)
    (excluded : list string) (fs : FileSystem) (merged : config) (repos : list repo) :
  (ranked = [] ∨ sumBytes ranked = 0 →
     writeSVG path ranked owner excluded fs = (Some "no language data to chart", fs))
  ∧ (Username merged ≠ "" → filterRepos merged repos = [] →
     run merged (inr repos) fs
     = mkOutcome 1 ("error: no repositories after filtering" +:+ newline) "" fs).
Proof.
  split; [apply writeSVG_no_data|].
  intros Huser Hfiltered. unfold run.
  destruct (String.eqb_spec (Username merged) ""); [done|].
  by rewrite Hfiltered.
Qed.

(** C10. The result of [writeSVG], the file it writes and the bytes of the
    image, does not depend on the owner label: two calls that differ only in
    the owner argument end in the same error or success and leave the same
    files. *)
Theorem writeSVG_owner_independent (path : string) (ranked : list langStat)
    (owner1 owner2 : string) (excluded : list string) (fs : FileSystem) :
  writeSVG path ranked owner1 excluded fs = writeSVG path ranked owner2 excluded fs.
Proof. reflexivity. Qed.

End renderer_facts.

(** ** The Aggregator *)

Lemma foldl_Permutation {A B} (f : A → B → A) (l1 l2 : list B) :
  (∀ a x y, f (f a x) y = f (f a y) x) →
  l1 ≡ₚ l2 → ∀ a, foldl f a l1 = foldl f a l2.
Proof.
  intros Hf. induction 1 as [|x l1 l2 _ IH|x y l|l1 l2 l3 _ IH1 _ IH2]; intros a; simpl.
  - done.
  - apply IH.
  - by rewrite Hf.
  - by rewrite IH1, IH2.
Qed.

Section aggregator_facts.
Context `{Env}.

Lemma addLang_comm (total : gmap string Z) (e1 e2 : string * Z) :
  <[e2.1 := add64 (default 0 (<[e1.1 := add64 (default 0 (total !! e1.1)) e1.2]> total !! e2.1)) e2.2]>
    (<[e1.1 := add64 (default 0 (total !! e1.1)) e1.2]> total)
  = <[e1.1 := add64 (default 0 (<[e2.1 := add64 (default 0 (total !! e2.1)) e2.2]> total !! e1.1)) e1.2]>
      (<[e2.1 := add64 (default 0 (total !! e2.1)) e2.2]> total).
Proof.
  destruct e1 as [k1 b1], e2 as [k2 b2]. cbn [fst snd].
  destruct (decide (k1 = k2)) as [->|Hne].
  - rewrite !lookup_insert_eq, !insert_insert_eq. cbn [default]. f_equal.
    unfold id. rewrite !add64_assoc. f_equal. apply add64_comm.
  - rewrite !lookup_insert_ne by done. by apply insert_insert_ne.
Qed.

(** The order in which the languages of one repository are visited does
    not matter. *)
Lemma addLangs_Permutation total iter1 iter2 :
  iter1 ≡ₚ iter2 → addLangs total iter1 = addLangs total iter2.
Proof.
  intros Hperm. unfold addLangs. apply foldl_Permutation; [|done].
  intros a x y. apply addLang_comm.
Qed.

Lemma addLangs_comm total iter1 iter2 :
  addLangs (addLangs total iter1) iter2 = addLangs (addLangs total iter2) iter1.
Proof.
  unfold addLangs. rewrite <- !foldl_app. apply addLangs_Permutation.
  apply Permutation_app_comm.
Qed.

Lemma fetchLanguagesLoop_Permutation repos1 repos2 token :
  repos1 ≡ₚ repos2 → ∀ total,
  totalOf (fetchLanguagesLoop repos1 token total)
  = totalOf (fetchLanguagesLoop repos2 token total).
Proof.
  induction 1 as [|r l1 l2 _ IH|r1 r2 l|l1 l2 l3 _ IH1 _ IH2]; intros total.
  - done.
  - cbn [fetchLanguagesLoop]. destruct (getJSON_languages _ _); [done|apply IH].
  - cbn [fetchLanguagesLoop].
    destruct (getJSON_languages (languagesURL r1) token),
             (getJSON_languages (languagesURL r2) token); try done.
    by rewrite addLangs_comm.
  - by rewrite IH1, IH2.
Qed.

(** C9. Aggregation does not depend on the order of the repositories: for
    two lists of repositories that are permutations of each other,
    [fetchLanguages] fails for both or returns the same mapping of summed
    byte counts for both.  Nor does it depend on the order in which the
    languages of one repository are added, nor on the order in which two
    repositories' languages are added. *)
Theorem fetchLanguages_order_independent (repos1 repos2 : list repo) (token : string) :
  repos1 ≡ₚ repos2 →
  totalOf (fetchLanguages repos1 token) = totalOf (fetchLanguages repos2 token)
  ∧ (∀ total (langs : gmap string Z) iter,
       iter ≡ₚ map_to_list langs →
       addLangs total iter = addLangs total (map_to_list langs))
  ∧ (∀ total (langs1 langs2 : gmap string Z),
       addLangs (addLangs total (map_to_list langs1)) (map_to_list langs2)
       = addLangs (addLangs total (map_to_list langs2)) (map_to_list langs1)).
Proof.
  intros Hperm. split; [by apply fetchLanguagesLoop_Permutation|].
  split; [intros total langs iter; apply addLangs_Permutation|].
  intros total langs1 langs2. apply addLangs_comm.
Qed.

End aggregator_facts.

(** ** Runs of the program *)

Lemma fetchLanguages_order_independent_witness :
  totalOf (fetchLanguages (H := memEnv answersAB) [repoA; repoB] "")
  = totalOf (fetchLanguages (H := memEnv answersAB) [repoB; repoA] "").
Proof.
  exact (proj1 (fetchLanguages_order_independent (H := memEnv answersAB)
                  [repoA; repoB] [repoB; repoA] "" (Permutation_swap _ _ _))).
Defined.

Lemma fetchLanguages_example :
  fetchLanguages (H := memEnv answersAB) [repoA; repoB] ""
  = inr (list_to_map [("Go", 300); ("Python", 100); ("TeX", 50); ("HTML", 10)]).
Proof. vm_compute. reflexivity. Qed.

Lemma no_data_fails_witness :
  writeSVG (H := memEnv ∅) "lang-rank.svg" [] "octocat" [] ∅
  = (Some "no language data to chart", ∅)
  ∧ run (H := memEnv ∅)
      (mkConfig "octocat" "" "lang-rank.svg" false false false true [] 0)
      (inr [mkRepo "fork" "octocat/fork" true false]) ∅
    = mkOutcome (H := memEnv ∅) 1
        ("error: no repositories after filtering" +:+ newline) "" ∅.
Proof.
  pose proof (no_data_fails (H := memEnv ∅) "lang-rank.svg" [] "octocat" [] ∅
                (mkConfig "octocat" "" "lang-rank.svg" false false false true [] 0)
                [mkRepo "fork" "octocat/fork" true false]) as [Hsvg Hrun].
  split.
  - apply Hsvg. by left.
  - apply Hrun; [discriminate|reflexivity].
Defined.

(** C2 at a sequence whose last entry has a width that rounds to zero: the
    ranking of Go 1000000, X 1.  The bar is 584 wide; the only segment
    emitted is 583 wide, and nothing covers the last unit of the bar. *)
Lemma barSegments_last_entry_rounds_to_zero :
  let ranked := rankLanguages (list_to_map [("Go", 1000000); ("X", 1)]) in
  ranked = [mkLangStat "Go" 1000000; mkLangStat "X" 1]
  ∧ sumBytes ranked = 1000001
  ∧ barWidth (computeLayout (length ranked) 0) = 584
  ∧ barSegments (H := memEnv ∅) ranked 0 = [mkBarSegment 28 583 "#00ADD8"]
  ∧ totalWidth (barSegments (H := memEnv ∅) ranked 0) = 583.
Proof. vm_compute. repeat split; reflexivity. Qed.

(** The scenario of the specification: Go 300, Python 100, TeX 50 without
    a limit keep their rank order, and the bar is split 389 + 129 + 66. *)
Lemma barSegments_scenario :
  barSegments (H := memEnv ∅)
    [mkLangStat "Go" 300; mkLangStat "Python" 100; mkLangStat "TeX" 50] 0
  = [mkBarSegment 28 389 "#00ADD8"; mkBarSegment 417 129 "#3572A5";
     mkBarSegment 546 66 "#27ae60"].
Proof. vm_compute. reflexivity. Qed.

(** * Part III: further properties of the program *)

(** ** [initialForLanguage] *)






(** ** The filter of [main] *)

Lemma filterRepos_cons merged r repos :
  filterRepos merged (r :: repos)
  = if (IncludeForks merged || negb (Fork r))
       && (IncludeArchived merged || negb (Archived r))
    then r :: filterRepos merged repos else filterRepos merged repos.
Proof.
  cbn [filterRepos].
  by destruct (IncludeForks merged), (Fork r), (IncludeArchived merged), (Archived r).
Qed.

Lemma filterRepos_elem_of merged repos r :
  r ∈ filterRepos merged repos
  ↔ r ∈ repos
    ∧ (Fork r = true → IncludeForks merged = true)
    ∧ (Archived r = true → IncludeArchived merged = true).
Proof.
  induction repos as [|r' repos IH].
  - cbn [filterRepos]. rewrite elem_of_nil. tauto.
  - rewrite filterRepos_cons.
    destruct (_ && _) eqn:Hkeep; rewrite ?elem_of_cons, IH.
    + assert ((Fork r' = true → IncludeForks merged = true)
              ∧ (Archived r' = true → IncludeArchived merged = true)) as Hr'.
      { apply andb_prop in Hkeep as [H1 H2].
        split; intros Hx; rewrite Hx in *; cbn [negb] in *;
          by rewrite orb_false_r in *. }
      split.
      * intros [->|[? ?]]; [split; [by left|done]|split; [by right|done]].
      * intros [[->|?] ?]; [by left|by right].
    + split; [intros [? ?]; split; [by right|done]|].
      intros [[->|?] [Hp1 Hp2]]; [exfalso|done].
      destruct (Fork r'), (Archived r');
        rewrite ?Hp1, ?Hp2 in Hkeep by done;
        by destruct (IncludeForks merged), (IncludeArchived merged).
Qed.

Lemma filterRepos_sublist merged repos : sublist (filterRepos merged repos) repos.
Proof.
  induction repos as [|r repos IH]; [constructor|].
  rewrite filterRepos_cons. destruct (_ && _).
  - by apply sublist_skip.
  - by apply sublist_cons.
Qed.

Lemma filterRepos_idemp merged repos :
  filterRepos merged (filterRepos merged repos) = filterRepos merged repos.
Proof.
  induction repos as [|r repos IH]; [done|].
  rewrite filterRepos_cons. destruct (_ && _) eqn:Hkeep; [|done].
  by rewrite filterRepos_cons, Hkeep, IH.
Qed.

(** X2.  The filter keeps, in their order, exactly the repositories that are
    neither a fork that is not wanted nor an archived repository that is not
    wanted; with both options set it keeps every repository, and filtering
    twice changes nothing more. *)
Theorem filterRepos_spec (merged : config) (repos : list repo) :
  (∀ r, r ∈ filterRepos merged repos
        ↔ r ∈ repos
          ∧ (Fork r = true → IncludeForks merged = true)
          ∧ (Archived r = true → IncludeArchived merged = true))
  ∧ sublist (filterRepos merged repos) repos
  ∧ (IncludeForks merged = true → IncludeArchived merged = true →
     filterRepos merged repos = repos)
  ∧ filterRepos merged (filterRepos merged repos) = filterRepos merged repos.
Proof.
  split; [intros r; apply filterRepos_elem_of|].
  split; [apply filterRepos_sublist|].
  split; [|apply filterRepos_idemp].
  intros Hf Ha. induction repos as [|r repos IH]; [done|].
  by rewrite filterRepos_cons, Hf, Ha, IH.
Qed.

(** ** More on the Bucketizer *)

Lemma sumBytes_in_int64 l : in_int64 (sumBytes l).
Proof. rewrite sumBytes_wrap. apply wrap64_in_int64. Qed.

(** X12.  Bucketizing a second time with the same limit and flag changes
    nothing: the entry "Other" of the first pass is the whole remainder of
    the second. *)
Theorem collapseOthers_idempotent (ranked : list langStat) (top : Z) (showOther : bool) :
  collapseOthers (collapseOthers ranked top showOther) top showOther
  = collapseOthers ranked top showOther.
Proof.
  destruct (decide (0 < top < Z.of_nat (length ranked))) as [Htop|Htop];
    [|by rewrite !(collapseOthers_unchanged ranked) by lia].
  rewrite (collapseOthers_collapsed ranked) by done.
  set (n := Z.to_nat top).
  assert (length (take n ranked) = n) as Hlen by (rewrite length_take; lia).
  destruct (showOther && _) eqn:Hother.
  - apply andb_prop in Hother as [-> Hpos].
    set (other := sumBytes (drop n ranked)) in *.
    rewrite collapseOthers_collapsed by (rewrite length_app, Hlen; simpl; lia).
    fold n. rewrite take_app_length', drop_app_length' by done.
    assert (sumBytes [mkLangStat "Other" other] = other) as ->.
    { unfold sumBytes. cbn [foldl Bytes]. unfold add64. rewrite Z.add_0_l.
      apply wrap64_small, sumBytes_in_int64. }
    by rewrite Hpos.
  - rewrite app_nil_r. apply collapseOthers_unchanged. lia.
Qed.

(** X13.  With a positive limit the result has at most [top + 1] entries, at most
    [top] without the flag, and never more entries than the input; the
    entries before the last are entries of the input in their order. *)
Theorem collapseOthers_length (ranked : list langStat) (top : Z) (showOther : bool) :
  0 < top →
  Z.of_nat (length (collapseOthers ranked top showOther)) <= top + 1
  ∧ (showOther = false →
     Z.of_nat (length (collapseOthers ranked top showOther)) <= top)
  ∧ (length (collapseOthers ranked top showOther) ≤ length ranked)%nat
  ∧ take (Z.to_nat top) (collapseOthers ranked top showOther)
    = take (Z.to_nat top) ranked.
Proof.
  intros Hpos.
  destruct (decide (top < Z.of_nat (length ranked))) as [Htop|Htop].
  - rewrite collapseOthers_collapsed by lia.
    assert (length (take (Z.to_nat top) ranked) = Z.to_nat top) as Hlen
      by (rewrite length_take; lia).
    rewrite take_app_length' by done. rewrite length_app, Hlen.
    split; [destruct (_ && _); simpl; lia|].
    split; [intros ->; simpl; lia|].
    split; [destruct (_ && _); simpl; lia|done].
  - rewrite collapseOthers_unchanged by lia. repeat split; lia.
Qed.

Lemma collapseOthers_length_witness :
  Z.of_nat (length (collapseOthers
                      [mkLangStat "Go" 300; mkLangStat "Python" 100;
                       mkLangStat "TeX" 50; mkLangStat "HTML" 10] 2 true))
  <= 2 + 1.
Proof.
  refine (proj1 (collapseOthers_length _ 2 true _)). lia.
Defined.

(** ** More on escaping *)

Lemma string_append_assoc s1 s2 s3 : (s1 +:+ s2) +:+ s3 = s1 +:+ (s2 +:+ s3).
Proof.
  induction s1 as [|c s1 IH]; [done|]. by rewrite !append_String, IH.
Qed.

Lemma string_length_append s1 s2 :
  String.length (s1 +:+ s2) = (String.length s1 + String.length s2)%nat.
Proof.
  induction s1 as [|c s1 IH]; [done|]. rewrite append_String. simpl. by rewrite IH.
Qed.

Lemma escapeText_append s1 s2 : escapeText (s1 +:+ s2) = escapeText s1 +:+ escapeText s2.
Proof.
  induction s1 as [|c s1 IH]; [done|].
  by rewrite append_String, !escapeText_cons, IH, string_append_assoc.
Qed.

(** The escaped equivalents form a prefix code: no escaped form of a byte
    is the start of the escaped form of another byte. *)
Lemma escapedForm_prefix_free c1 c2 r1 r2 :
  escapedForm c1 +:+ r1 = escapedForm c2 +:+ r2 → c1 = c2 ∧ r1 = r2.
Proof.
  unfold escapedForm.
  destruct (Ascii.eqb_spec c1 "&"%char) as [->|?];
  [|destruct (Ascii.eqb_spec c1 "<"%char) as [->|?];
  [|destruct (Ascii.eqb_spec c1 ">"%char) as [->|?];
  [|destruct (Ascii.eqb_spec c1 dquote) as [->|?];
  [|destruct (Ascii.eqb_spec c1 "'"%char) as [->|?]]]]];
  (destruct (Ascii.eqb_spec c2 "&"%char) as [->|?];
  [|destruct (Ascii.eqb_spec c2 "<"%char) as [->|?];
  [|destruct (Ascii.eqb_spec c2 ">"%char) as [->|?];
  [|destruct (Ascii.eqb_spec c2 dquote) as [->|?];
  [|destruct (Ascii.eqb_spec c2 "'"%char) as [->|?]]]]]);
  rewrite ?append_String, ?append_Empty; intros Heq;
  try (injection Heq as <-; done); try discriminate Heq;
  by simplify_eq.
Qed.

Lemma escapeText_inj s1 s2 : escapeText s1 = escapeText s2 → s1 = s2.
Proof.
  revert s2. induction s1 as [|c1 s1 IH]; intros [|c2 s2].
  - done.
  - rewrite escapeText_cons. change (escapeText "") with "".
    destruct (escapedForm_cases c2) as [[_ Hent]|[_ ->]]; [|done].
    unfold entities in Hent.
    repeat (apply elem_of_cons in Hent as [->|Hent]); try done.
    by apply not_elem_of_nil in Hent.
  - rewrite escapeText_cons. change (escapeText "") with "".
    destruct (escapedForm_cases c1) as [[_ Hent]|[_ ->]]; [|done].
    unfold entities in Hent.
    repeat (apply elem_of_cons in Hent as [->|Hent]); try done.
    by apply not_elem_of_nil in Hent.
  - rewrite !escapeText_cons. intros [-> Heq]%escapedForm_prefix_free.
    f_equal. by apply IH.
Qed.

Lemma escapeText_length s : (String.length s ≤ String.length (escapeText s))%nat.
Proof.
  induction s as [|c s IH]; [done|].
  rewrite escapeText_cons, string_length_append.
  assert (1 ≤ String.length (escapedForm c))%nat.
  { destruct (escapedForm_cases c) as [[_ Hent]|[_ ->]]; [|done].
    unfold entities in Hent.
    repeat (apply elem_of_cons in Hent as [->|Hent]); simpl; try lia.
    by apply not_elem_of_nil in Hent. }
  simpl. lia.
Qed.

Lemma escapeText_plain s : escapeText s = s ↔ plainText s.
Proof.
  unfold plainText. induction s as [|c s IH]; [split; [constructor|done]|].
  rewrite escapeText_cons. cbn [list_ascii_of_string]. rewrite Forall_cons.
  destruct (escapedForm_cases c) as [[Hc Hent]|[Hc ->]].
  - split; [|tauto]. intros Heq. exfalso.
    unfold entities in Hent.
    repeat (apply elem_of_cons in Hent as [Hent|Hent]);
      [..|by apply not_elem_of_nil in Hent];
      rewrite Hent, ?append_String, ?append_Empty in Heq;
      injection Heq as <- Heq;
      pose proof (escapeText_length s) as Hlen;
      apply (f_equal String.length) in Heq; simpl in Heq; lia.
  - rewrite append_String, append_Empty. rewrite <- IH.
    split; [intros [= ?]; by split|intros [_ ->]; done].
Qed.

(** X15.  Distinct texts have distinct escaped texts, the escaped text of a
    concatenation is the concatenation of the escaped texts, and escaping
    never shortens a text. *)
Theorem escapeText_injective (s1 s2 : string) :
  (escapeText s1 = escapeText s2 → s1 = s2)
  ∧ escapeText (s1 +:+ s2) = escapeText s1 +:+ escapeText s2
  ∧ (String.length s1 ≤ String.length (escapeText s1))%nat.
Proof.
  split; [apply escapeText_inj|].
  split; [apply escapeText_append|apply escapeText_length].
Qed.

(** X16.  Escaping is not idempotent: it leaves a text as it is exactly when the
    text has none of the five special characters, and escaping an escaped
    text again gives the same text only in that case (an escaped equivalent
    starts with an ampersand, which is escaped again). *)
Theorem escapeText_twice (s : string) :
  (escapeText s = s ↔ plainText s)
  ∧ (escapeText (escapeText s) = escapeText s ↔ plainText s).
Proof.
  split; [apply escapeText_plain|]. split.
  - intros Heq. by apply escapeText_plain, escapeText_inj.
  - intros Hplain. apply escapeText_plain in Hplain. by rewrite !Hplain.
Qed.

(** ** The Excluder and the Ranker together *)

Section pipeline_facts.
Context `{Env}.

Lemma applyExcludes_map total excludes lang :
  (applyExcludes total excludes).1 !! lang
  = if decide (excludedBy excludes lang) then None else total !! lang.
Proof. by apply applyExcludesFrom_map. Qed.

Lemma omap_None_nil {A B} (f : A → option B) (l : list A) :
  Forall (λ x, f x = None) l → omap f l = [].
Proof. induction 1 as [|x l Hx _ IH]; [done|]. cbn. by rewrite Hx. Qed.

(** X10.  Excluding the same terms a second time removes nothing more and
    reports nothing. *)
Theorem applyExcludes_idempotent (total : gmap string Z) (excludes : list string) :
  applyExcludes (applyExcludes total excludes).1 excludes
  = ((applyExcludes total excludes).1, []).
Proof.
  apply injective_projections; cbn [fst snd].
  - apply map_eq. intros lang. rewrite !applyExcludes_map.
    by destruct (decide _).
  - unfold applyExcludes at 1. rewrite applyExcludesFrom_removed.
    rewrite omap_None_nil; [done|].
    apply Forall_forall. intros lang Hlang.
    apply list_elem_of_fmap in Hlang as ([lang' bytes] & -> & Hin).
    apply elem_of_map_to_list in Hin. cbn [fst].
    rewrite applyExcludes_map in Hin.
    destruct (decide (excludedBy excludes lang')) as [|Hex]; [done|].
    destruct (reportedTerm excludes lang') eqn:Hterm; [|done].
    destruct Hex. apply reportedTerm_is_Some. by eexists.
Qed.

(** X9.  The ranking that follows the exclusion holds exactly the entries of the
    aggregate whose language equals no exclude term up to case: an excluded
    language is never ranked, and no other language is lost. *)
Theorem excluded_never_ranked (total : gmap string Z) (excludes : list string)
    (lang : string) (bytes : Z) :
  mkLangStat lang bytes ∈ rankLanguages (applyExcludes total excludes).1
  ↔ total !! lang = Some bytes ∧ ¬ excludedBy excludes lang.
Proof.
  rewrite rankLanguages_elem_of, applyExcludes_map.
  destruct (decide (excludedBy excludes lang)) as [Hex|Hex].
  - split; [done|]. by intros [_ ?].
  - split; [by intros ?|by intros [? _]].
Qed.

(** ** More on the Aggregator *)

Lemma addLangs_lookup (langs : gmap string Z) : ∀ (total : gmap string Z) lang,
  addLangs total (map_to_list langs) !! lang
  = match langs !! lang with
    | Some bytes => Some (add64 (default 0 (total !! lang)) bytes)
    | None => total !! lang
    end.
Proof.
  induction langs as [|key bytes langs Hkey IH] using map_ind; intros total lang.
  - by rewrite map_to_list_empty, lookup_empty.
  - rewrite (addLangs_Permutation total _ _ (map_to_list_insert _ _ _ Hkey)).
    unfold addLangs. cbn [foldl fst snd]. fold (addLangs (<[key:=add64 (default 0 (total !! key)) bytes]> total) (map_to_list langs)).
    rewrite IH. destruct (decide (key = lang)) as [->|Hne].
    + by rewrite Hkey, !lookup_insert_eq.
    + by rewrite !lookup_insert_ne.
Qed.

Lemma langSum_absent answers lang :
  ¬ Exists (λ langs : gmap string Z, is_Some (langs !! lang)) answers →
  langSum answers lang = 0.
Proof.
  induction answers as [|langs answers IH]; [done|].
  rewrite Exists_cons. intros Hnot. cbn [langSum foldr].
  fold (langSum answers lang). rewrite IH by tauto.
  destruct (langs !! lang) eqn:Hl; [|done]. destruct Hnot. left. by eexists.
Qed.

Lemma fetchLanguagesLoop_lookup repos answers token :
  Forall2 (λ r langs, getJSON_languages (languagesURL r) token = inr langs)
          repos answers →
  ∀ total0, ∃ total,
    fetchLanguagesLoop repos token total0 = inr total
    ∧ ∀ lang, total !! lang
              = if decide (Exists (λ langs : gmap string Z, is_Some (langs !! lang)) answers)
                then Some (wrap64 (default 0 (total0 !! lang) + langSum answers lang))
                else total0 !! lang.
Proof.
  induction 1 as [|r langs repos answers Hr _ IH]; intros total0.
  - exists total0. split; [done|]. intros lang.
    rewrite decide_False; [done|]. by intros ?%Exists_nil.
  - destruct (IH (addLangs total0 (map_to_list langs))) as (total & Hloop & Htotal).
    exists total. cbn [fetchLanguagesLoop]. rewrite Hr. split; [done|].
    intros lang. rewrite Htotal, addLangs_lookup. cbn [langSum foldr].
    fold (langSum answers lang).
    destruct (decide (Exists _ answers)) as [Hex|Hex].
    + rewrite decide_True by (by apply Exists_cons_tl).
      f_equal. destruct (langs !! lang) as [bytes|]; cbn [default]; unfold id.
      * unfold add64. rewrite wrap64_add_l. f_equal; lia.
      * f_equal; lia.
    + rewrite (langSum_absent _ _ Hex), Z.add_0_r.
      destruct (langs !! lang) as [bytes|] eqn:Hl; cbn [default]; unfold id.
      * rewrite decide_True by (apply Exists_cons_hd; by eexists). done.
      * rewrite decide_False; [done|]. rewrite Exists_cons.
        intros [[? ?]|?]; [congruence|done].
Qed.

(** X5.  When every repository is answered, [fetchLanguages] returns the mapping
    that has exactly the languages of the answers, each with the sum of its
    bytes over the repositories, in 64-bit arithmetic. *)
Theorem fetchLanguages_sums (repos : list repo) (answers : list (gmap string Z))
    (token : string) :
  Forall2 (λ r langs, getJSON_languages (languagesURL r) token = inr langs)
          repos answers →
  ∃ total,
    fetchLanguages repos token = inr total
    ∧ ∀ lang, total !! lang
              = if decide (Exists (λ langs : gmap string Z, is_Some (langs !! lang)) answers)
                then Some (wrap64 (langSum answers lang))
                else None.
Proof.
  intros Hanswers.
  destruct (fetchLanguagesLoop_lookup _ _ _ Hanswers ∅) as (total & Hloop & Htotal).
  exists total. split; [done|]. intros lang. rewrite Htotal, lookup_empty.
  by destruct (decide _).
Qed.

(** X6.  A repository whose languages cannot be fetched aborts the aggregation:
    the error names the first such repository, and no mapping is
    returned. *)
Theorem fetchLanguages_fails_fast (before after : list repo) (r : repo)
    (token : string) (err : error) :
  Forall (λ r', ∃ langs, getJSON_languages (languagesURL r') token = inr langs) before →
  getJSON_languages (languagesURL r) token = inl err →
  fetchLanguages (before ++ r :: after) token
  = inl (Sprintf "languages for %s: %w" [ArgStr (FullName r); ArgStr err]).
Proof.
  intros Hbefore Hr. unfold fetchLanguages. generalize (∅ : gmap string Z).
  induction Hbefore as [|r' before [langs Hr'] _ IH]; intros total;
    cbn [app fetchLanguagesLoop].
  - by rewrite Hr.
  - rewrite Hr'. apply IH.
Qed.

End pipeline_facts.

Lemma fetchLanguages_sums_witness :
  ∃ total,
    fetchLanguages (H := memEnv answersAB) [repoA; repoB] "" = inr total
    ∧ ∀ lang, total !! lang
              = if decide (Exists (λ langs : gmap string Z, is_Some (langs !! lang))
                             [list_to_map [("Go", 200); ("HTML", 10)];
                              list_to_map [("Go", 100); ("Python", 100); ("TeX", 50)]])
                then Some (wrap64 (langSum
                             [list_to_map [("Go", 200); ("HTML", 10)];
                              list_to_map [("Go", 100); ("Python", 100); ("TeX", 50)]]
                             lang))
                else None.
Proof.
  apply (fetchLanguages_sums (H := memEnv answersAB)).
  repeat constructor.
Defined.

Lemma fetchLanguages_fails_fast_witness :
  fetchLanguages (H := memEnv answersAB)
    ([repoA] ++ mkRepo "gone" "octocat/gone" false false :: [repoB]) ""
  = inl "languages for octocat/gone: request failed: 404 Not Found: ".
Proof.
  apply (fetchLanguages_fails_fast (H := memEnv answersAB) [repoA] [repoB]
           (mkRepo "gone" "octocat/gone" false false) ""
           "request failed: 404 Not Found: ").
  - constructor; [|constructor]. eexists. vm_compute. reflexivity.
  - vm_compute. reflexivity.
Defined.

(** ** Runs of [main] *)

Section run_facts.
Context `{Env}.

Lemma printTable_not_empty ranked : printTable ranked ≠ "".
Proof. unfold printTable. by rewrite append_String. Qed.

(** X7.  No table is printed exactly when the run fails before the ranking: the
    user name is missing, the repositories cannot be fetched, none is left
    after filtering, or the languages of one cannot be fetched.  Such a run
    ends with exit status 1 and touches no file. *)
Theorem run_fails_before_ranking (merged : config) (fetched : error + list repo)
    (fs : FileSystem) :
  (stdout (run merged fetched fs) = ""
   ↔ Username merged = ""
     ∨ (∃ err, fetched = inl err)
     ∨ (∃ repos, fetched = inr repos
          ∧ (filterRepos merged repos = []
             ∨ ∃ err, fetchLanguages (filterRepos merged repos) (Token merged)
                      = inl err)))
  ∧ (stdout (run merged fetched fs) = "" →
     exit_status (run merged fetched fs) = 1 ∧ files (run merged fetched fs) = fs).
Proof.
  unfold run.
  destruct (String.eqb_spec (Username merged) "") as [Huser|Huser];
    [split; [split; [by left|done]|done]|].
  destruct fetched as [err|repos];
    [split; [split; [right; left; by eexists|done]|done]|].
  destruct (filterRepos merged repos) as [|r filtered] eqn:Hfiltered;
    [split; [split; [right; right; eexists; split; [done|by left]|done]|done]|].
  cbn [length Nat.eqb].
  destruct (fetchLanguages (r :: filtered) (Token merged)) as [err|total] eqn:Hlangs;
    [split; [split; [right; right; eexists; split;
                       [done|right; rewrite Hfiltered; by eexists]|done]
            |done]|].
  destruct (applyExcludes total (Exclude merged)) as [total' excluded].
  destruct (writeSVG _ _ _ _ _) as [[err|] fs']; cbn [stdout];
    (split; [split|]; [by intros ?%printTable_not_empty
                      |intros [?|[[? ?]|(? & [= <-] & [?|[? ?]])]]; congruence
                      |by intros ?%printTable_not_empty]).
Qed.

(** X8.  A run that ends with exit status 0 went through every stage: the
    repositories and their languages were fetched, some repository was left
    after filtering, the ranked and bucketized sequence is not empty and its
    bytes do not sum to zero, the table of that sequence was printed, and
    [writeSVG] returned without error for that sequence and the report of
    the Excluder. *)
Theorem run_success (merged : config) (fetched : error + list repo) (fs : FileSystem) :
  exit_status (run merged fetched fs) = 0 →
  ∃ repos total,
    Username merged ≠ ""
    ∧ fetched = inr repos
    ∧ filterRepos merged repos ≠ []
    ∧ fetchLanguages (filterRepos merged repos) (Token merged) = inr total
    ∧ let ranked :=
        collapseOthers (rankLanguages (applyExcludes total (Exclude merged)).1)
                       (Top merged) (ShowOther merged) in
      ranked ≠ [] ∧ sumBytes ranked ≠ 0
      ∧ stdout (run merged fetched fs) = printTable ranked
      ∧ stderr (run merged fetched fs) = ""
      ∧ writeSVG (Output merged) ranked (Username merged)
                 (applyExcludes total (Exclude merged)).2 fs
        = (None, files (run merged fetched fs)).
Proof.
  unfold run.
  destruct (String.eqb_spec (Username merged) "") as [Huser|Huser]; [done|].
  destruct fetched as [err|repos]; [done|].
  destruct (filterRepos merged repos) as [|r filtered] eqn:Hfiltered; [done|].
  cbn [length Nat.eqb].
  destruct (fetchLanguages (r :: filtered) (Token merged)) as [err|total] eqn:Hlangs;
    [done|].
  destruct (applyExcludes total (Exclude merged)) as [total' excluded] eqn:Hexcl.
  rewrite collapseOthers_guarded. cbn [fst snd].
  set (ranked := collapseOthers (rankLanguages total') (Top merged) (ShowOther merged)).
  destruct (writeSVG (Output merged) ranked (Username merged) excluded fs)
    as [[err|] fs'] eqn:Hsvg; [done|].
  intros _. exists repos, total. rewrite Hfiltered, Hexcl. cbn [fst snd].
  fold ranked. repeat split; try done.
  - intros Hempty. by rewrite writeSVG_no_data in Hsvg by (by left).
  - intros Hzero. by rewrite writeSVG_no_data in Hsvg by (by right).
Qed.

End run_facts.

Lemma run_success_witness :
  ∃ repos total,
    fetchLanguages (H := memEnv answersAB) (filterRepos
      (mkConfig "octocat" "" "lang-rank.svg" false false false true ["TeX"] 2) repos) ""
    = inr total
    ∧ stdout (run (H := memEnv answersAB)
                (mkConfig "octocat" "" "lang-rank.svg" false false false true ["TeX"] 2)
                (inr [repoA; repoB]) ∅)
      = printTable (collapseOthers
                      (rankLanguages (applyExcludes (H := memEnv answersAB) total ["TeX"]).1)
                      2 true).
Proof.
  destruct (run_success (H := memEnv answersAB)
              (mkConfig "octocat" "" "lang-rank.svg" false false false true ["TeX"] 2)
              (inr [repoA; repoB]) ∅)
    as (repos & total & _ & _ & _ & Hlangs & _ & _ & Hout & _).
  - vm_compute. reflexivity.
  - exists repos, total. split; [exact Hlangs|exact Hout].
Defined.

Lemma run_example :
  stdout (run (H := memEnv answersAB)
            (mkConfig "octocat" "" "lang-rank.svg" false false false true ["TeX"] 2)
            (inr [repoA; repoB]) ∅)
  = "Language Bytes" +:+ newline +:+ "-------- -----" +:+ newline
    +:+ "Go       300" +:+ newline +:+ "Python   100" +:+ newline
    +:+ "Other    10" +:+ newline.
Proof. vm_compute. reflexivity. Qed.

(** ** The Repository Source *)

Section fetchRepos_facts.
Variable getJSON_repos : string → string → error + list repo.
Context (owner token : string) (useOrg : bool).

Lemma fetchReposLoop_pages (batches : list (list repo)) :
  ∀ (fuel : nat) (page : Z) (all : list repo),
  Forall (λ batch, batch ≠ []) batches →
  (∀ k batch, batches !! k = Some batch →
     getJSON_repos (reposURL owner useOrg (page + Z.of_nat k)) token = inr batch) →
  (length batches < fuel)%nat →
  fetchReposLoop getJSON_repos fuel owner token useOrg page all
  = match getJSON_repos
            (reposURL owner useOrg (page + Z.of_nat (length batches))) token with
    | inl err => Some (inl err)
    | inr [] => Some (inr (all ++ concat batches))
    | inr (r :: rest) =>
        fetchReposLoop getJSON_repos (fuel - S (length batches)) owner token useOrg
          (page + Z.of_nat (length batches) + 1) ((all ++ concat batches) ++ r :: rest)
    end.
Proof.
  induction batches as [|batch batches IH]; intros fuel page all Hne Hpages Hfuel.
  - destruct fuel as [|fuel]; [simpl in Hfuel; lia|].
    cbn [fetchReposLoop length concat]. change (Z.of_nat 0) with 0.
    rewrite Z.add_0_r, app_nil_r.
    replace (S fuel - 1)%nat with fuel by lia.
    by destruct (getJSON_repos _ _) as [err|[|r rest]].
  - destruct fuel as [|fuel]; [simpl in Hfuel; lia|].
    apply Forall_cons in Hne as [Hbatch Hne].
    cbn [fetchReposLoop].
    pose proof (Hpages 0%nat batch eq_refl) as Hfirst.
    change (Z.of_nat 0) with 0 in Hfirst. rewrite Z.add_0_r in Hfirst.
    rewrite Hfirst.
    destruct batch as [|r rest]; [done|]. cbn [length Nat.eqb].
    rewrite IH; [|done|..].
    + cbn [concat]. rewrite <- !app_assoc.
      replace (page + 1 + Z.of_nat (length batches))
        with (page + Z.of_nat (S (length batches))) by lia.
      by replace (S fuel - S (S (length batches)))%nat
        with (fuel - S (length batches))%nat by lia.
    + intros k batch' Hk. specialize (Hpages (S k) batch' Hk).
      by replace (page + 1 + Z.of_nat k) with (page + Z.of_nat (S k)) by lia.
    + simpl in Hfuel. lia.
Qed.

(** X3.  Pagination.  When the pages 1 to n answer the non-empty batches
    [batches] and page n+1 answers an empty batch, [fetchRepos] returns the
    repositories of the batches in page order, after n+1 requests; when page
    n+1 fails instead, [fetchRepos] returns its error and none of the
    repositories collected so far. *)
Theorem fetchRepos_pages (batches : list (list repo)) (fuel : nat) :
  Forall (λ batch, batch ≠ []) batches →
  (∀ k batch, batches !! k = Some batch →
     getJSON_repos (reposURL owner useOrg (1 + Z.of_nat k)) token = inr batch) →
  (length batches < fuel)%nat →
  (getJSON_repos (reposURL owner useOrg (1 + Z.of_nat (length batches))) token = inr [] →
   fetchRepos getJSON_repos fuel owner token useOrg = Some (inr (concat batches)))
  ∧ (∀ err,
       getJSON_repos (reposURL owner useOrg (1 + Z.of_nat (length batches))) token
       = inl err →
       fetchRepos getJSON_repos fuel owner token useOrg = Some (inl err)).
Proof.
  intros Hne Hpages Hfuel. unfold fetchRepos.
  rewrite (fetchReposLoop_pages batches fuel 1 [] Hne Hpages Hfuel).
  split; [by intros ->|by intros err ->].
Qed.

Lemma fetchReposLoop_endless (fuel : nat) : ∀ (page : Z) (all : list repo),
  1 <= page →
  (∀ page', 1 <= page' →
     ∃ batch, batch ≠ []
              ∧ getJSON_repos (reposURL owner useOrg page') token = inr batch) →
  fetchReposLoop getJSON_repos fuel owner token useOrg page all = None.
Proof.
  induction fuel as [|fuel IH]; intros page all Hpage Hsource; [done|].
  cbn [fetchReposLoop]. destruct (Hsource page Hpage) as (batch & Hbatch & ->).
  destruct batch as [|r rest]; [done|]. cbn [length Nat.eqb].
  apply IH; [lia|done].
Qed.

(** X4.  The loop of [fetchRepos] has no bound of its own: against a source that
    answers every page with a non-empty batch it requests page after page
    and never returns, however many requests it is given. *)
Theorem fetchRepos_endless (fuel : nat) :
  (∀ page, 1 <= page →
     ∃ batch, batch ≠ []
              ∧ getJSON_repos (reposURL owner useOrg page) token = inr batch) →
  fetchRepos getJSON_repos fuel owner token useOrg = None.
Proof. intros Hsource. by apply fetchReposLoop_endless. Qed.

End fetchRepos_facts.

Lemma fetchRepos_pages_witness :
  fetchRepos twoPageSource 5 "octocat" "" false = Some (inr [repoA; repoB]).
Proof.
  refine (proj1 (fetchRepos_pages twoPageSource "octocat" "" false [[repoA; repoB]] 5
                   _ _ _) _).
  - by repeat constructor.
  - intros [|k] batch; [intros [= <-]; reflexivity|]. by destruct k.
  - simpl. lia.
  - reflexivity.
Defined.

Lemma fetchRepos_endless_witness :
  fetchRepos endlessSource 100 "octocat" "" false = None.
Proof.
  apply (fetchRepos_endless endlessSource "octocat" "" false 100).
  intros page _. by exists [repoA].
Defined.

(** ** The grid of tiles *)

Section grid_facts.
Context `{Env}.

Lemma tiles_lookup ranked nexcluded i t :
  tiles ranked nexcluded !! i = Some t →
  let ly := computeLayout (length ranked) nexcluded in
  (i < length ranked)%nat
  ∧ tile_x t = cardPadding + Z.rem (Z.of_nat i) (cols ly) * (tileWidth ly + tileGap)
  ∧ tile_y t = gridTop ly + Z.quot (Z.of_nat i) (cols ly) * (tileHeight + tileGap).
Proof.
  unfold tiles. rewrite list_lookup_imap. intros Ht.
  destruct (ranked !! i) as [item|] eqn:Hitem; [|done].
  injection Ht as <-. split; [by eapply lookup_lt_Some|done].
Qed.

(** One, two or three columns, with the tile width that goes with them. *)
Lemma computeLayout_columns len nexcluded :
  (1 ≤ len)%nat →
  let ly := computeLayout len nexcluded in
  (len = 1%nat ∧ cols ly = 1 ∧ tileWidth ly = 584)
  ∨ (len = 2%nat ∧ cols ly = 2 ∧ tileWidth ly = 284)
  ∨ ((3 ≤ len)%nat ∧ cols ly = 3 ∧ tileWidth ly = 184).
Proof.
  intros Hlen. unfold computeLayout. cbn [cols tileWidth].
  destruct (Z.ltb_spec (Z.of_nat len) 3) as [Hsmall|Hbig].
  - destruct len as [|[|[|len]]]; [lia| | |lia].
    + left. by repeat split.
    + right. left. by repeat split.
  - right. right. split; [lia|]. by split.
Qed.

Lemma quot_rem_nonneg a b :
  0 <= a → 0 < b →
  a = b * Z.quot a b + Z.rem a b ∧ 0 <= Z.quot a b ∧ 0 <= Z.rem a b < b.
Proof.
  intros Ha Hb. split; [apply Z.quot_rem'|].
  split; [apply Z.quot_pos; lia|apply Z.rem_bound_pos; lia].
Qed.

Lemma tiles_within_padding ranked nexcluded i t :
  tiles ranked nexcluded !! i = Some t →
  let ly := computeLayout (length ranked) nexcluded in
  cardPadding <= tile_x t
  ∧ tile_x t + tileWidth ly <= width - cardPadding
  ∧ gridTop ly <= tile_y t.
Proof.
  intros Ht ly. apply tiles_lookup in Ht as (Hi & -> & ->). fold ly.
  destruct (computeLayout_columns (length ranked) nexcluded ltac:(lia))
    as [(_ & Hc & Hw)|[(_ & Hc & Hw)|(_ & Hc & Hw)]];
    fold ly in Hc, Hw; rewrite Hc, Hw;
    match goal with
    | |- context [Z.rem ?a ?b] =>
        destruct (quot_rem_nonneg a b ltac:(lia) ltac:(lia)) as (_ & ? & ?)
    end;
    unfold cardPadding, width, tileGap, tileHeight; lia.
Qed.

Lemma tiles_no_overlap ranked nexcluded i j ti tj :
  i ≠ j →
  tiles ranked nexcluded !! i = Some ti →
  tiles ranked nexcluded !! j = Some tj →
  tilesApart (tileWidth (computeLayout (length ranked) nexcluded)) ti tj.
Proof.
  intros Hij Hti Htj. unfold tilesApart.
  apply tiles_lookup in Hti as (Hi & -> & ->).
  apply tiles_lookup in Htj as (Hj & -> & ->).
  set (ly := computeLayout (length ranked) nexcluded).
  destruct (computeLayout_columns (length ranked) nexcluded ltac:(lia))
    as [(_ & Hc & Hw)|[(_ & Hc & Hw)|(_ & Hc & Hw)]];
    fold ly in Hc, Hw; rewrite Hc, Hw;
    match goal with
    | |- context [Z.rem (Z.of_nat i) ?b] =>
        destruct (quot_rem_nonneg (Z.of_nat i) b ltac:(lia) ltac:(lia))
          as (? & ? & ?);
        destruct (quot_rem_nonneg (Z.of_nat j) b ltac:(lia) ltac:(lia))
          as (? & ? & ?)
    end;
    unfold cardPadding, width, tileGap, tileHeight; lia.
Qed.

(** X18.  There is one tile for each entry; every tile lies between the left and
    the right padding of the card, below the bar; and no two tiles
    overlap. *)
Theorem tiles_fit_and_apart (ranked : list langStat) (nexcluded : nat) :
  let ly := computeLayout (length ranked) nexcluded in
  length (tiles ranked nexcluded) = length ranked
  ∧ (∀ i t, tiles ranked nexcluded !! i = Some t →
       cardPadding <= tile_x t
       ∧ tile_x t + tileWidth ly <= width - cardPadding
       ∧ gridTop ly <= tile_y t)
  ∧ (∀ i j ti tj,
       i ≠ j →
       tiles ranked nexcluded !! i = Some ti →
       tiles ranked nexcluded !! j = Some tj →
       tilesApart (tileWidth ly) ti tj).
Proof.
  intros ly. split; [apply length_imap|]. split.
  - intros i t. apply tiles_within_padding.
  - intros i j ti tj. apply tiles_no_overlap.
Qed.

(** The offset of the grid for one or two rows of tiles, and for more. *)
Lemma computeLayout_gridTop len nexcluded :
  let ly := computeLayout len nexcluded in
  ((1 ≤ len ≤ 3)%nat → 149 <= gridTop ly <= 163)
  ∧ ((4 ≤ len ≤ 6)%nat → 106 <= gridTop ly <= 119)
  ∧ ((7 ≤ len)%nat → gridTop ly = 106).
Proof.
  intros ly. split; [|split].
  - intros Hlen. subst ly.
    destruct len as [|[|[|[|len]]]]; try lia; destruct nexcluded; by vm_compute.
  - intros Hlen. subst ly.
    destruct len as [|[|[|[|[|[|[|len]]]]]]]; try lia;
      destruct nexcluded; by vm_compute.
  - intros Hlen. subst ly. unfold computeLayout. cbn [gridTop].
    replace (Z.of_nat len <? 3) with false by (symmetry; apply Z.ltb_ge; lia).
    destruct (quot_rem_nonneg (Z.of_nat len + 3 - 1) 3 ltac:(lia) ltac:(lia))
      as (Hq & Hq0 & Hr).
    set (rows := Z.quot (Z.of_nat len + 3 - 1) 3) in *.
    set (footer := if (0 <? nexcluded)%nat then 28 else 0).
    assert (0 <= footer) by (unfold footer; destruct (0 <? nexcluded)%nat; lia).
    unfold height, headerHeight, headerGap, barHeight, barGap, tileHeight,
      tileGap, cardPadding.
    set (content := 24 + 18 + 14 + 22 + (rows * 72 + (rows - 1) * 16) + footer).
    assert (326 <= content) by (unfold content; lia).
    assert (Z.quot (320 - content) 2 <= 0) as Hneg.
    { replace (320 - content) with (- (content - 320)) by lia.
      rewrite Z.quot_opp_l by lia.
      pose proof (Z.quot_pos (content - 320) 2 ltac:(lia) ltac:(lia)). lia. }
    destruct (Z.ltb_spec (Z.quot (320 - content) 2) 28); lia.
Qed.

(** X19.  With at most six entries every tile lies inside the canvas of the
    image. *)
Theorem tiles_inside_canvas (ranked : list langStat) (nexcluded : nat) (i : nat)
    (t : tile) :
  (length ranked ≤ 6)%nat →
  tiles ranked nexcluded !! i = Some t →
  insideCanvas (tileWidth (computeLayout (length ranked) nexcluded)) t.
Proof.
  intros Hlen Ht.
  destruct (tiles_within_padding ranked nexcluded i t Ht) as (Hx1 & Hx2 & Hy).
  apply tiles_lookup in Ht as (Hi & _ & Hty).
  set (ly := computeLayout (length ranked) nexcluded) in *.
  pose proof (computeLayout_gridTop (length ranked) nexcluded) as (Htop1 & Htop2 & _).
  fold ly in Htop1, Htop2.
  unfold insideCanvas, cardPadding, width, height, tileHeight, tileGap in *.
  destruct (computeLayout_columns (length ranked) nexcluded ltac:(lia))
    as [(Hl & Hc & _)|[(Hl & Hc & _)|(Hl & Hc & _)]]; fold ly in Hc;
    rewrite Hc in Hty;
    match type of Hty with
    | context [Z.quot ?a ?b] =>
        destruct (quot_rem_nonneg a b ltac:(lia) ltac:(lia)) as (? & ? & ?)
    end;
    destruct (decide (length ranked ≤ 3)%nat);
    [specialize (Htop1 ltac:(lia))|specialize (Htop2 ltac:(lia))
    |specialize (Htop1 ltac:(lia))|specialize (Htop2 ltac:(lia))
    |specialize (Htop1 ltac:(lia))|specialize (Htop2 ltac:(lia))]; lia.
Qed.

(** X20.  With seven entries or more the grid has three rows or more and does
    not fit: the last tile ends below the lower edge of the canvas. *)
Theorem tiles_overflow_canvas (ranked : list langStat) (nexcluded : nat) (t : tile) :
  (7 ≤ length ranked)%nat →
  last (tiles ranked nexcluded) = Some t →
  height < tile_y t + tileHeight.
Proof.
  intros Hlen Hlast. rewrite last_lookup in Hlast.
  assert (length (tiles ranked nexcluded) = length ranked) as Hcount
    by apply length_imap.
  rewrite Hcount in Hlast.
  apply tiles_lookup in Hlast as (_ & _ & ->).
  pose proof (computeLayout_gridTop (length ranked) nexcluded) as (_ & _ & Htop).
  rewrite (Htop Hlen).
  destruct (computeLayout_columns (length ranked) nexcluded ltac:(lia))
    as [(Hl & _)|[(Hl & _)|(_ & -> & _)]]; [lia..|].
  destruct (quot_rem_nonneg (Z.of_nat (Init.Nat.pred (length ranked))) 3
              ltac:(lia) ltac:(lia)) as (? & ? & ?).
  unfold height, tileHeight, tileGap. lia.
Qed.

End grid_facts.

Lemma tiles_inside_canvas_witness :
  insideCanvas 184
    (mkTile 428 163 "#27ae60" "TeX"
       (f64_mul (f64_div (f64_of_int 50) (f64_of_int 450)) (f64_of_int 100)) 50).
Proof.
  apply (tiles_inside_canvas (H := memEnv ∅)
           [mkLangStat "Go" 300; mkLangStat "Python" 100; mkLangStat "TeX" 50]
           0 2).
  - simpl. lia.
  - vm_compute. reflexivity.
Defined.

Lemma tiles_overflow_canvas_witness :
  height < 282 + tileHeight.
Proof.
  apply (tiles_overflow_canvas (H := memEnv ∅)
           (replicate 7 (mkLangStat "Go" 1)) 0
           (mkTile 28 282 "#00ADD8" "Go"
              (f64_mul (f64_div (f64_of_int 1) (f64_of_int 7)) (f64_of_int 100)) 1)).
  - simpl. lia.
  - vm_compute. reflexivity.
Defined.

(** ** Flags *)

Lemma digitValue_pretty_N_char d :
  (d < 10)%N → digitValue (pretty_N_char d) = Some (Z.of_N d).
Proof.
  intros Hd.
  assert (d = 0 ∨ d = 1 ∨ d = 2 ∨ d = 3 ∨ d = 4 ∨ d = 5 ∨ d = 6 ∨ d = 7
          ∨ d = 8 ∨ d = 9)%N as Hcases by lia.
  repeat (destruct Hcases as [->|Hcases]; [reflexivity|]). by subst.
Qed.

Lemma parseDigits_pretty_N_go x :
  ∃ k, 0 <= k ∧ ∀ s acc,
    parseDigits acc (pretty_N_go x s) = parseDigits (acc * 10 ^ k + Z.of_N x) s.
Proof.
  induction (N.lt_wf_0 x) as [x _ IH].
  destruct (decide (x = 0)%N) as [->|Hx].
  - exists 0. split; [done|]. intros s acc. rewrite pretty_N_go_0. f_equal. lia.
  - destruct (IH (x `div` 10)%N) as (k & Hk & Hparse); [apply N.div_lt; lia|].
    exists (k + 1). split; [lia|]. intros s acc.
    rewrite pretty_N_go_step by lia. rewrite Hparse. cbn [parseDigits].
    rewrite digitValue_pretty_N_char by (apply N.mod_lt; lia).
    f_equal. rewrite Z.pow_add_r, Z.pow_1_r by lia.
    pose proof (N.div_mod x 10 ltac:(lia)). lia.
Qed.

Lemma pretty_N_go_starts_with_digit x s :
  (0 < x)%N ∨ (∃ c rest, s = String c rest ∧ is_Some (digitValue c)) →
  ∃ c rest, pretty_N_go x s = String c rest ∧ is_Some (digitValue c).
Proof.
  revert s. induction (N.lt_wf_0 x) as [x _ IH]. intros s Hstart.
  destruct (decide (x = 0)%N) as [->|Hx].
  - rewrite pretty_N_go_0. destruct Hstart as [?|?]; [lia|done].
  - rewrite pretty_N_go_step by lia. apply IH; [apply N.div_lt; lia|].
    right. eexists _, _. split; [done|].
    rewrite digitValue_pretty_N_char by (apply N.mod_lt; lia). by eexists.
Qed.

Lemma Atoi_starts_with_digit c rest :
  is_Some (digitValue c) →
  Atoi (String c rest)
  = match parseDigits 0 (String c rest) with
    | Some n => if (- 2 ^ 63 <=? n) && (n <=? 2 ^ 63 - 1) then Some n else None
    | None => None
    end.
Proof.
  unfold digitValue. intros Hc.
  destruct ((48 <=? nat_of_ascii c) && (nat_of_ascii c <=? 57))%nat eqn:Hrange;
    [|by destruct Hc].
  apply andb_prop in Hrange as [H1 H2]. apply Nat.leb_le in H1, H2.
  rewrite <- (ascii_nat_embedding c).
  assert (nat_of_ascii c = 48 ∨ nat_of_ascii c = 49 ∨ nat_of_ascii c = 50
          ∨ nat_of_ascii c = 51 ∨ nat_of_ascii c = 52 ∨ nat_of_ascii c = 53
          ∨ nat_of_ascii c = 54 ∨ nat_of_ascii c = 55 ∨ nat_of_ascii c = 56
          ∨ nat_of_ascii c = 57)%nat as Hcases by lia.
  repeat (destruct Hcases as [->|Hcases]; [reflexivity|]). by rewrite Hcases.
Qed.

Lemma Atoi_pretty z : in_int64 z → Atoi (pretty z) = Some z.
Proof.
  unfold in_int64. intros Hz.
  destruct z as [|p|p]; [reflexivity|..].
  - change (pretty (Z.pos p)) with (pretty_N_go (N.pos p) "").
    destruct (pretty_N_go_starts_with_digit (N.pos p) "" ltac:(left; lia))
      as (c & rest & Heq & Hc).
    destruct (parseDigits_pretty_N_go (N.pos p)) as (k & _ & Hparse).
    rewrite Heq, (Atoi_starts_with_digit c rest Hc), <- Heq, Hparse.
    cbn [parseDigits]. rewrite Z.mul_0_l, Z.add_0_l.
    change (Z.of_N (N.pos p)) with (Z.pos p).
    destruct (Z.leb_spec (- 2 ^ 63) (Z.pos p)); [|lia].
    destruct (Z.leb_spec (Z.pos p) (2 ^ 63 - 1)); [done|lia].
  - change (pretty (Z.neg p)) with (String "-"%char (pretty_N_go (N.pos p) "")).
    destruct (pretty_N_go_starts_with_digit (N.pos p) "" ltac:(left; lia))
      as (c & rest & Heq & Hc).
    destruct (parseDigits_pretty_N_go (N.pos p)) as (k & _ & Hparse).
    unfold Atoi. rewrite Heq at 1. rewrite Hparse.
    cbn [parseDigits]. rewrite Z.mul_0_l, Z.add_0_l.
    change (Z.of_N (N.pos p)) with (Z.pos p).
    change (- Z.pos p) with (Z.neg p).
    destruct (Z.leb_spec (- 2 ^ 63) (Z.neg p)); [|lia].
    destruct (Z.leb_spec (Z.neg p) (2 ^ 63 - 1)); [done|lia].
Qed.

Lemma Sprintf_d z : Sprintf "%d" [ArgInt z] = pretty z.
Proof.
  change (Sprintf "%d" [ArgInt z]) with (pretty z +:+ "").
  apply string_append_empty_r.
Qed.

(** X21.  What a flag prints is what it reads: setting a flag to the text that
    [String] gives for a flag gives the value of that flag (for an integer
    flag, a value of the range of [int]), marked as set, without error. *)
Theorem flags_roundtrip (s s' : stringFlag) (b b' : boolFlag) (i i' : intFlag) :
  stringFlag_Set (stringFlag_String s) s' = (None, mkStringFlag (string_val s) true)
  ∧ boolFlag_Set (boolFlag_String b) b' = (None, mkBoolFlag (bool_val b) true)
  ∧ (in_int64 (int_val i) →
     intFlag_Set (intFlag_String i) i' = (None, mkIntFlag (int_val i) true)).
Proof.
  split; [done|]. split; [by destruct b as [[] ?]|].
  intros Hi. unfold intFlag_Set, intFlag_String, parseInt.
  by rewrite Sprintf_d, Atoi_pretty.
Qed.

(** X22.  A value that does not parse leaves the flag as it was and is reported
    with the value; an integer beyond the range of [int] does not parse. *)
Theorem intFlag_Set_out_of_range (i : intFlag) (z : Z) :
  ¬ in_int64 z →
  intFlag_Set (pretty z) i = (Some (Sprintf "invalid int: %s" [ArgStr (pretty z)]), i).
Proof.
  unfold in_int64. intros Hz. unfold intFlag_Set, parseInt.
  assert (Atoi (pretty z) = None) as ->; [|done].
  destruct z as [|p|p]; [lia|..].
  - change (pretty (Z.pos p)) with (pretty_N_go (N.pos p) "").
    destruct (pretty_N_go_starts_with_digit (N.pos p) "" ltac:(left; lia))
      as (c & rest & Heq & Hc).
    destruct (parseDigits_pretty_N_go (N.pos p)) as (k & _ & Hparse).
    rewrite Heq, (Atoi_starts_with_digit c rest Hc), <- Heq, Hparse.
    cbn [parseDigits]. rewrite Z.mul_0_l, Z.add_0_l.
    change (Z.of_N (N.pos p)) with (Z.pos p).
    destruct (Z.leb_spec (- 2 ^ 63) (Z.pos p)); [|done].
    destruct (Z.leb_spec (Z.pos p) (2 ^ 63 - 1)); [lia|done].
  - change (pretty (Z.neg p)) with (String "-"%char (pretty_N_go (N.pos p) "")).
    destruct (pretty_N_go_starts_with_digit (N.pos p) "" ltac:(left; lia))
      as (c & rest & Heq & Hc).
    destruct (parseDigits_pretty_N_go (N.pos p)) as (k & _ & Hparse).
    unfold Atoi. rewrite Heq at 1. rewrite Hparse.
    cbn [parseDigits]. rewrite Z.mul_0_l, Z.add_0_l.
    change (Z.of_N (N.pos p)) with (Z.pos p).
    change (- Z.pos p) with (Z.neg p).
    destruct (Z.leb_spec (- 2 ^ 63) (Z.neg p)); [|done].
    destruct (Z.leb_spec (Z.neg p) (2 ^ 63 - 1)); [lia|done].
Qed.

Lemma intFlag_Set_out_of_range_witness :
  intFlag_Set "9223372036854775808" (mkIntFlag 6 true)
  = (Some "invalid int: 9223372036854775808", mkIntFlag 6 true).
Proof.
  apply (intFlag_Set_out_of_range (mkIntFlag 6 true) (2 ^ 63)).
  unfold in_int64. lia.
Defined.

(** ** The configuration *)

Lemma Split_no_sep sep t :
  sep ∉ list_ascii_of_string t → Split t sep = [t].
Proof.
  induction t as [|c t IH]; [done|].
  cbn [list_ascii_of_string Split]. rewrite not_elem_of_cons. intros [Hc Ht].
  destruct (Ascii.eqb_spec c sep) as [->|_]; [done|]. by rewrite IH.
Qed.

Lemma Split_app sep t s :
  sep ∉ list_ascii_of_string t →
  Split (t +:+ String sep s) sep = t :: Split s sep.
Proof.
  induction t as [|c t IH].
  - intros _. rewrite append_Empty. cbn [Split]. by rewrite Ascii.eqb_refl.
  - cbn [list_ascii_of_string]. rewrite not_elem_of_cons. intros [Hc Ht].
    rewrite append_String. cbn [Split].
    destruct (Ascii.eqb_spec c sep) as [->|_]; [done|]. by rewrite IH.
Qed.

Lemma Split_concat terms :
  terms ≠ [] →
  Forall (λ t, ","%char ∉ list_ascii_of_string t) terms →
  Split (String.concat "," terms) ","%char = terms.
Proof.
  induction terms as [|t terms IH]; [done|]. intros _ Hterms.
  apply Forall_cons in Hterms as [Ht Hterms].
  destruct terms as [|t' terms].
  - by apply Split_no_sep.
  - change (String.concat "," (t :: t' :: terms))
      with (t +:+ String ","%char (String.concat "," (t' :: terms))).
    rewrite Split_app by done. f_equal. by apply IH.
Qed.

Section configuration_facts.
Variable TrimSpace : string → string.

Lemma splitCSV_loop parts : ∀ out,
  foldl (λ out part,
           let trimmed := TrimSpace part in
           if String.eqb trimmed "" then out else out ++ [trimmed])
        out parts
  = out ++ filter (λ term, term ≠ "") (TrimSpace <$> parts).
Proof.
  induction parts as [|part parts IH]; intros out; cbn [foldl].
  - by rewrite app_nil_r.
  - rewrite IH, fmap_cons, filter_cons.
    destruct (String.eqb_spec (TrimSpace part) "") as [Heq|Hne].
    + by rewrite decide_False by (by intros ?).
    + by rewrite decide_True, <- app_assoc by done.
Qed.

(** X23.  [splitCSV] never gives an empty term: its terms are the pieces of the
    value between commas, trimmed, without the pieces that are blank, in
    their order; a blank value gives no term. *)
Theorem splitCSV_terms (value : string) :
  Forall (λ term, term ≠ "") (splitCSV TrimSpace value)
  ∧ sublist (splitCSV TrimSpace value) (TrimSpace <$> Split value ","%char)
  ∧ (TrimSpace value = "" → splitCSV TrimSpace value = [])
  ∧ (TrimSpace value ≠ "" →
     splitCSV TrimSpace value
     = filter (λ term, term ≠ "") (TrimSpace <$> Split value ","%char)).
Proof.
  unfold splitCSV.
  destruct (String.eqb_spec (TrimSpace value) "") as [Heq|Hne].
  - split; [constructor|]. split; [apply sublist_nil_l|]. by split.
  - rewrite splitCSV_loop, app_nil_l.
    split; [by apply Forall_forall; intros term [? _]%list_elem_of_filter|].
    split; [apply sublist_filter|]. by split.
Qed.

(** X24.  A list of terms that are not empty, have no comma and no space around
    them comes back from its comma-separated form, provided that form is not
    blank. *)
Theorem splitCSV_join (terms : list string) :
  terms ≠ [] →
  Forall (λ t, t ≠ "" ∧ TrimSpace t = t ∧ ","%char ∉ list_ascii_of_string t) terms →
  TrimSpace (String.concat "," terms) ≠ "" →
  splitCSV TrimSpace (String.concat "," terms) = terms.
Proof.
  intros Hne Hterms Hblank. unfold splitCSV.
  destruct (String.eqb_spec (TrimSpace (String.concat "," terms)) ""); [done|].
  rewrite splitCSV_loop, app_nil_l, Split_concat; [|done|].
  - clear Hne Hblank n. induction Hterms as [|t terms (Ht & Htrim & _) _ IH]; [done|].
    rewrite fmap_cons, filter_cons, Htrim, decide_True by done. by rewrite IH.
  - eapply Forall_impl; [exact Hterms|]. by intros t (_ & _ & ?).
Qed.

(** X25.  After [mergeConfig] the output path is never empty: without a flag and
    without a path in the file, and also with an empty flag, it is
    "lang-rank.svg".  Without a flag and without a value in the file the
    bucket "Other" is shown.  An exclude flag with a blank value clears the
    exclude list of the file, and a limit given by flag replaces the limit
    of the file, also when it is zero. *)
Theorem mergeConfig_defaults (cfg : fileConfig) (username token output : stringFlag)
    (includeForks includeArchived useOrg showOther : boolFlag)
    (exclude : stringFlag) (top : intFlag) :
  let merged :=
    mergeConfig TrimSpace cfg username token output includeForks includeArchived
                useOrg showOther exclude top in
  Output merged ≠ ""
  ∧ (Output merged = "lang-rank.svg"
     ↔ (if string_set output then string_val output else file_Output cfg)
       ∈ [""; "lang-rank.svg"])
  ∧ (ShowOther merged = false
     ↔ (if bool_set showOther then bool_val showOther = false
        else file_ShowOther cfg = Some false))
  ∧ (string_set exclude = true → TrimSpace (string_val exclude) = "" →
     Exclude merged = [])
  ∧ (int_set top = true → Top merged = int_val top).
Proof.
  intros merged. unfold merged, mergeConfig. cbn [Output ShowOther Exclude Top].
  set (given := if string_set output then string_val output else file_Output cfg).
  split; [by destruct (String.eqb_spec given "")|].
  split.
  { destruct (String.eqb_spec given "") as [->|Hne].
    - split; [intros _; apply elem_of_cons; by left|done].
    - rewrite !elem_of_cons, elem_of_nil. tauto. }
  split.
  { destruct (bool_set showOther); [by destruct (bool_val showOther)|].
    destruct (file_ShowOther cfg) as [[]|]; split; congruence. }
  split.
  - intros -> Hblank. unfold splitCSV. by rewrite Hblank.
  - by intros ->.
Qed.

End configuration_facts.

Lemma splitCSV_join_witness :
  splitCSV ascii_TrimSpace "TeX,HTML,Jupyter Notebook"
  = ["TeX"; "HTML"; "Jupyter Notebook"].
Proof.
  apply (splitCSV_join ascii_TrimSpace ["TeX"; "HTML"; "Jupyter Notebook"]).
  - done.
  - repeat constructor; try done;
      cbn [list_ascii_of_string]; rewrite !not_elem_of_cons; repeat split;
      try discriminate; apply not_elem_of_nil.
  - vm_compute. discriminate.
Defined.

(** ** Nothing is lost without being reported *)

Section conservation_facts.
Context `{Env}.

Lemma excluded_or_reported excludes (l : list (string * Z)) :
  (length (filter (λ kv, ¬ excludedBy excludes kv.1) l)
   + length (omap (reportedTerm excludes) l.*1))%nat
  = length l.
Proof.
  induction l as [|[lang bytes] l IH]; [done|].
  rewrite filter_cons, fmap_cons. cbn [fst omap list_omap].
  destruct (decide (¬ excludedBy excludes lang)) as [Hkeep|Hdrop].
  - destruct (reportedTerm excludes lang) eqn:Hterm.
    + destruct Hkeep. apply reportedTerm_is_Some. by eexists.
    + cbn [length]. fold (omap (reportedTerm excludes) l.*1). lia.
  - destruct (reportedTerm excludes lang) eqn:Hterm.
    + cbn [length]. fold (omap (reportedTerm excludes) l.*1). lia.
    + destruct Hdrop. intros Hex. apply reportedTerm_is_Some in Hex.
      rewrite Hterm in Hex. by destruct Hex.
Qed.

(** X11.  The report of the Excluder has one term for each entry that it
    removes: the entries that stay and the terms of the report together are
    as many as the entries before. *)
Theorem applyExcludes_report_size (total : gmap string Z) (excludes : list string) :
  size total
  = (size (applyExcludes total excludes).1
     + length (applyExcludes total excludes).2)%nat.
Proof.
  rewrite <- !length_map_to_list.
  rewrite <- (excluded_or_reported excludes (map_to_list total)). f_equal.
  - symmetry. apply Permutation_length, NoDup_Permutation.
    + apply NoDup_map_to_list.
    + apply NoDup_filter, NoDup_map_to_list.
    + intros [lang bytes].
      rewrite elem_of_map_to_list, list_elem_of_filter, elem_of_map_to_list.
      unfold applyExcludes. rewrite applyExcludesFrom_map by done. cbn [fst].
      destruct (decide (excludedBy excludes lang)); [|tauto].
      split; [done|]. by intros [? _].
  - unfold applyExcludes. rewrite applyExcludesFrom_removed.
    symmetry. apply Permutation_length. unfold sort_Strings.
    apply sort_Slice_Permutation.
Qed.

End conservation_facts.

(** X14.  With the flag set, bucketizing a sequence of the data model keeps the
    sum of the byte counts, whether or not it collapses and whether or not
    the remainder is zero; without the flag the sum can only go down, by the
    bytes of the entries beyond the limit. *)
Theorem collapseOthers_conserves (ranked : list langStat) (top : Z) (showOther : bool) :
  wellFormed ranked →
  (showOther = true → byteSum (collapseOthers ranked top showOther) = byteSum ranked)
  ∧ byteSum (collapseOthers ranked top showOther) <= byteSum ranked
  ∧ (showOther = false → 0 < top < Z.of_nat (length ranked) →
     byteSum (collapseOthers ranked top showOther)
     = byteSum ranked - byteSum (drop (Z.to_nat top) ranked)).
Proof.
  intros Hwf.
  destruct (decide (0 < top < Z.of_nat (length ranked))) as [Htop|Htop];
    [|rewrite !collapseOthers_unchanged by lia; repeat split; lia].
  rewrite collapseOthers_collapsed by done.
  pose proof (wellFormed_drop ranked (Z.to_nat top) Hwf) as Hdrop.
  rewrite (sumBytes_wellFormed _ Hdrop).
  pose proof (byteSum_nonneg _ (proj1 Hdrop)) as Hpos.
  assert (byteSum ranked = byteSum (take (Z.to_nat top) ranked)
                           + byteSum (drop (Z.to_nat top) ranked)) as Hsplit
    by (by rewrite <- byteSum_app, take_drop).
  set (remainder := byteSum (drop (Z.to_nat top) ranked)) in *.
  rewrite byteSum_app.
  destruct showOther; cbn [andb].
  - destruct (Z.ltb_spec 0 remainder); cbn [byteSum foldr Bytes];
      (split; [intros _; lia|]); (split; [lia|done]).
  - cbn [byteSum foldr]. split; [done|]. split; [lia|]. intros _ _. lia.
Qed.

Lemma collapseOthers_conserves_witness :
  byteSum (collapseOthers
             [mkLangStat "Go" 300; mkLangStat "Python" 100; mkLangStat "TeX" 50;
              mkLangStat "HTML" 10] 2 true)
  = byteSum [mkLangStat "Go" 300; mkLangStat "Python" 100; mkLangStat "TeX" 50;
             mkLangStat "HTML" 10].
Proof.
  refine (proj1 (collapseOthers_conserves _ 2 true _) eq_refl).
  split; [repeat constructor; simpl; lia|simpl; lia].
Defined.

(** ** The bar when its last entry is visible *)

Section bar_facts.
Context `{Env}.


End bar_facts.
